(** * gamma-sdk: account data and token resolution layer

    A shallow embedding of
      - [src/api/api.ts]         ([endlessRetry]),
      - [src/gfx/client.ts]      ([GfxCpmmClient]: the two cached fetches),
      - [src/gfx/token/token.ts] ([TokenModule]: [load] and [getTokenInfo]),
      - the CPMM account layouts ([CpmmConfigInfoLayout], [CpmmPoolInfoLayout]),
    together with the properties the specification states about them.

    Conventions.
      - JavaScript numbers that hold millisecond timestamps, intervals,
        priorities and decimals are integers here ([Z]).
      - JavaScript strings are [string]; addresses are base-58 text, so the
        8-bit characters of [string] are enough for them.
      - A [Map] is an association list in insertion order, because
        [Array.from(map)] observes that order; a [Set] whose order is never
        observed is a [gset string].
      - One call runs at a time: while a method awaits, nothing else
        touches the client. A method is then a state transformer over the
        client object and the outside world, and an exception is an
        [Outcome] next to the state reached when it was thrown. *)

From Stdlib Require Import ZArith NArith List String Ascii Lia.
From Stdlib.Strings Require Import Byte.
From stdpp Require Import base tactics option list gmap strings pretty.

Local Open Scope string_scope.
Local Open Scope Z_scope.
Local Set Warnings "-register-all,-clear-no-such-hyp".

(* ===================================================================== *)
(** ** JavaScript values used by the sources *)
(* ===================================================================== *)

(** What a [throw] or a rejected promise carries: an [Error] built by the
    code under study, or whatever a collaborator (HTTP client, RPC node,
    library constructor) rejected with. *)
Inductive Exn :=
| Error (message : string)
| Rejected (reason : string).

Inductive Outcome (A : Type) :=
| Ok (a : A)
| Throw (e : Exn).
Arguments Ok {A} a.
Arguments Throw {A} e.

(** [Map<string, V>]: entries in insertion order, keys pairwise distinct.
    [set] on a present key keeps its position. *)
Definition JsMap (V : Type) := list (string * V).

Fixpoint map_get {V} (k : string) (m : JsMap V) : option V :=
  match m with
  | [] => None
  | (k', v) :: m' => if String.eqb k' k then Some v else map_get k m'
  end.

Fixpoint map_set {V} (k : string) (v : V) (m : JsMap V) : JsMap V :=
  match m with
  | [] => [(k, v)]
  | (k', v') :: m' =>
      if String.eqb k' k then (k', v) :: m' else (k', v') :: map_set k v m'
  end.

(** [Array.from(map).map((data) => data[1])] *)
Definition map_values {V} (m : JsMap V) : list V := List.map snd m.

(** [Array.prototype.includes] on an array of strings. *)
Definition includes (l : list string) (s : string) : bool :=
  existsb (String.eqb s) l.

(** [String.prototype.toLocaleUpperCase], on the ASCII letters. *)
Definition upper_char (c : ascii) : ascii :=
  let n := nat_of_ascii c in
  if (Nat.leb 97 n && Nat.leb n 122)%bool then ascii_of_nat (n - 32) else c.

Fixpoint toLocaleUpperCase (s : string) : string :=
  match s with
  | EmptyString => EmptyString
  | String c s' => String (upper_char c) (toLocaleUpperCase s')
  end.

(** [!s] for a string [s]: only the empty string is falsy. *)
Definition str_truthy (s : string) : bool :=
  match s with EmptyString => false | _ => true end.

(** [x || d] for a number that may be [undefined]: 0 and [undefined] are
    falsy. *)
Definition num_or (x : option Z) (d : Z) : Z :=
  match x with
  | Some v => if v =? 0 then d else v
  | None => d
  end.

(* ===================================================================== *)
(** ** Token records ([src/api/type.ts]) *)
(* ===================================================================== *)

Record TransferFee := {
  epoch : string;
  maximumFee : string;
  transferFeeBasisPoints : Z;
}.

Record TransferFeeDataBaseType := {
  transferFeeConfigAuthority : string;
  withdrawWithheldAuthority : string;
  withheldAmount : string;
  olderTransferFee : TransferFee;
  newerTransferFee : TransferFee;
}.

Record ExtensionsItem := {
  coingeckoId : option string;
  feeConfig : option TransferFeeDataBaseType;
}.

(** [ApiV3Token], and [TokenInfo] of [./type], which is not among the
    sources: it is taken to add the two fields [load] and [getTokenInfo]
    write, [priority] and [type], both absent ([None]) on a record as the
    API delivers it. [programId] is a [string] by its declared type; [load]
    nevertheless tests it for [undefined], so absence is representable. *)
Record TokenInfo := {
  chainId : Z;
  address : string;
  programId : option string;
  logoURI : string;
  symbol : string;
  name : string;
  decimals : Z;
  tags : list string;
  extensions : ExtensionsItem;
  priority : option Z;
  type : option string;
}.

Abbreviation ApiV3Token := TokenInfo.

(** [TOKEN_PROGRAM_ID.toBase58()] and [TOKEN_2022_PROGRAM_ID.toBase58()]
    of [@solana/spl-token]. *)
Definition TOKEN_PROGRAM_ID : string :=
  "TokenkegQfeZyiNwAJbNbGKPFXCWuBvf9Ss623VQ5DA".
Definition TOKEN_2022_PROGRAM_ID : string :=
  "TokenzQdBNbLqP5VEhdkAS6EPFLC1PHnBqCXEpPxuEb".

(* ===================================================================== *)
(** ** The outside world *)
(* ===================================================================== *)

(** [EpochInfo] of [@solana/web3.js]. *)
Record EpochInfo := {
  epoch_number : Z;
  slotIndex : Z;
  slotsInEpoch : Z;
  absoluteSlot : Z;
}.

(** [AccountInfo<Buffer>] of [@solana/web3.js]: the fields the code reads,
    [owner] in its base-58 form. *)
Record AccountInfo := {
  acc_data : list byte;
  owner : string;
}.

(** What [MintLayout.decode] yields, as far as the code reads it. *)
Record RawMint := {
  mint_decimals : Z;
}.

(** Everything observable from outside, in the order it happened. *)
Inductive Event :=
| EvGetJupTokenList
| EvGetTokenInfo (mints : list string)
| EvGetAccountInfo (pubkey : string)
| EvGetEpochInfo
| EvSleep (ms : Z)
| EvConsoleError (e : Exn)
| EvLoggerDebug (msg : string)
| EvLoggerError (msg : string) (e : Exn).

(** The clock read by [Date.now()] and the events so far, oldest first. *)
Record World := {
  clock : Z;
  history : list Event;
}.

(** The collaborators and the constants that live outside the sources under
    study. A remote call answers with an outcome and the time it took, in
    milliseconds; the answer may depend on the moment and on everything
    that happened before. *)
Record Env := {
  (** [Api.getJupTokenList()] *)
  api_getJupTokenList : World -> Outcome (list ApiV3Token) * N;
  (** [Api.getTokenInfo(mints)]; a JSON array may hold [null] *)
  api_getTokenInfo :
    list string -> World -> Outcome (list (option ApiV3Token)) * N;
  (** [Connection.getAccountInfo(pubkey)] *)
  connection_getAccountInfo :
    string -> World -> Outcome (option AccountInfo) * N;
  (** [Connection.getEpochInfo()] *)
  connection_getEpochInfo : World -> Outcome EpochInfo * N;
  (** [new PublicKey(s)], which throws on text that is no public key; the
      key is kept in its base-58 form *)
  PublicKey_new : string -> Outcome string;
  (** [MintLayout.decode(data)] of [@solana/spl-token] *)
  MintLayout_decode : list byte -> Outcome RawMint;
  (** [SOL_INFO] of [./constant] *)
  SOL_INFO : TokenInfo;
  (** [ModuleBase.checkDisabled]: throws when the module is switched off *)
  checkDisabled : option Exn;
}.

(* ===================================================================== *)
(** ** Objects: [TokenModule] and [GfxCpmmClient] *)
(* ===================================================================== *)

Record MintGroup := {
  official : gset string;
  jup : gset string;
  extra : gset string;
}.

Record TokenModule := {
  _tokenList : list TokenInfo;
  _tokenMap : JsMap TokenInfo;
  _mintGroup : MintGroup;
  _extraTokenList : list TokenInfo;
}.

(** [DataBase<T>], without the optional [extInfo] nobody writes. *)
Record DataBase (T : Type) := {
  fetched : Z;
  data : T;
}.
Arguments fetched {T} _.
Arguments data {T} _.

(** The shape of [_epochInfo]. *)
Record EpochCache := {
  epoch_fetched : Z;
  epoch_value : EpochInfo;
}.

(** The fields of [GfxCpmmClient] that the cached fetches and the token
    module read or write; [apiData] has the one key [jupTokenList]. *)
Record GfxCpmmClient := {
  token : TokenModule;
  apiData_jupTokenList : option (DataBase (list ApiV3Token));
  _apiCacheTime : Z;
  _epochInfo : option EpochCache;
}.

(** The numeric options of [ClientLoadParams]; [None] is [undefined]. *)
Record ClientLoadParams := {
  apiRequestInterval : option Z;
  apiRequestTimeout : option Z;
  apiCacheTime : option Z;
  disableLoadToken : bool;
}.

(** The initial field values of a [TokenModule]. *)
Definition new_TokenModule : TokenModule :=
  {| _tokenList := [];
     _tokenMap := [];
     _mintGroup := {| official := ∅; jup := ∅; extra := ∅ |};
     _extraTokenList := [] |}.

(** [constructor(config)] *)
Definition new_GfxCpmmClient (config : ClientLoadParams) : GfxCpmmClient :=
  {| token := new_TokenModule;
     apiData_jupTokenList := None;
     _apiCacheTime := num_or (apiCacheTime config) (5 * 60 * 1000);
     _epochInfo := None |}.

(** [merge(defaults, config)] of lodash on the numeric options: a value
    that is [undefined] in [config] leaves the default in place. *)
Definition merge_defaults (config : ClientLoadParams) : ClientLoadParams :=
  {| apiRequestInterval :=
       Some (default (5 * 60 * 1000) (apiRequestInterval config));
     apiRequestTimeout :=
       Some (default (10 * 1000) (apiRequestTimeout config));
     apiCacheTime := apiCacheTime config;
     disableLoadToken := disableLoadToken config |}.

(* ===================================================================== *)
(** ** Methods as state transformers *)
(* ===================================================================== *)

Record St := {
  client : GfxCpmmClient;
  world : World;
}.

Definition M (A : Type) : Type := St -> Outcome A * St.

Definition ret {A} (a : A) : M A := fun st => (Ok a, st).

Definition throw {A} (e : Exn) : M A := fun st => (Throw e, st).

Definition bind {A B} (k : A -> M B) (m : M A) : M B :=
  fun st =>
    match m st with
    | (Ok a, st') => k a st'
    | (Throw e, st') => (Throw e, st')
    end.

(** [try { body } catch (e) { handler(e) }] *)
Definition try_catch {A} (body : M A) (handler : Exn -> M A) : M A :=
  fun st =>
    match body st with
    | (Ok a, st') => (Ok a, st')
    | (Throw e, st') => handler e st'
    end.

(** [x ← m; k] runs [m], then [k] unless [m] threw. *)
#[local] Instance M_ret : MRet M := @ret.
#[local] Instance M_bind : MBind M := @bind.

Definition get_client : M GfxCpmmClient := fun st => (Ok (client st), st).

Definition modify_client (f : GfxCpmmClient -> GfxCpmmClient) : M unit :=
  fun st => (Ok tt, {| client := f (client st); world := world st |}).

(** [Date.now()] and [new Date().getTime()] *)
Definition Date_now : M Z := fun st => (Ok (clock (world st)), st).

(** An event with no answer (a log line). *)
Definition emit (ev : Event) : M unit :=
  fun st =>
    (Ok tt,
     {| client := client st;
        world := {| clock := clock (world st);
                    history := history (world st) ++ [ev] |} |}).

(** [await] of a remote call: the call is recorded, time passes, and the
    promise settles with the collaborator's answer. *)
Definition await {A} (ev : Event) (ask : World -> Outcome A * N) : M A :=
  fun st =>
    let '(r, dt) := ask (world st) in
    (r,
     {| client := client st;
        world := {| clock := clock (world st) + Z.of_N dt;
                    history := history (world st) ++ [ev] |} |}).

(** A synchronous library call that may throw. *)
Definition lift {A} (r : Outcome A) : M A := fun st => (r, st).

(** [await sleep(ms)] *)
Definition sleep (ms : Z) : M unit :=
  fun st =>
    (Ok tt,
     {| client := client st;
        world := {| clock := clock (world st) + Z.max 0 ms;
                    history := history (world st) ++ [EvSleep ms] |} |}).

(** Field updates. *)
Definition set_jupTokenList (v : option (DataBase (list ApiV3Token)))
    (c : GfxCpmmClient) : GfxCpmmClient :=
  {| token := token c; apiData_jupTokenList := v;
     _apiCacheTime := _apiCacheTime c; _epochInfo := _epochInfo c |}.

Definition set_epochInfo (v : option EpochCache) (c : GfxCpmmClient)
    : GfxCpmmClient :=
  {| token := token c; apiData_jupTokenList := apiData_jupTokenList c;
     _apiCacheTime := _apiCacheTime c; _epochInfo := v |}.

Definition set_token (f : TokenModule -> TokenModule) (c : GfxCpmmClient)
    : GfxCpmmClient :=
  {| token := f (token c); apiData_jupTokenList := apiData_jupTokenList c;
     _apiCacheTime := _apiCacheTime c; _epochInfo := _epochInfo c |}.

(** [this._tokenMap.set(k, v)] *)
Definition tokenMap_set (k : string) (v : TokenInfo) (tm : TokenModule)
    : TokenModule :=
  {| _tokenList := _tokenList tm;
     _tokenMap := map_set k v (_tokenMap tm);
     _mintGroup := _mintGroup tm;
     _extraTokenList := _extraTokenList tm |}.

(** [this._mintGroup.official.add(k)], [.jup.add(k)], [.extra.add(k)] *)
Definition official_add (k : string) (tm : TokenModule) : TokenModule :=
  {| _tokenList := _tokenList tm;
     _tokenMap := _tokenMap tm;
     _mintGroup := {| official := {[k]} ∪ official (_mintGroup tm);
                      jup := jup (_mintGroup tm);
                      extra := extra (_mintGroup tm) |};
     _extraTokenList := _extraTokenList tm |}.

Definition jup_add (k : string) (tm : TokenModule) : TokenModule :=
  {| _tokenList := _tokenList tm;
     _tokenMap := _tokenMap tm;
     _mintGroup := {| official := official (_mintGroup tm);
                      jup := {[k]} ∪ jup (_mintGroup tm);
                      extra := extra (_mintGroup tm) |};
     _extraTokenList := _extraTokenList tm |}.

Definition extra_add (k : string) (tm : TokenModule) : TokenModule :=
  {| _tokenList := _tokenList tm;
     _tokenMap := _tokenMap tm;
     _mintGroup := {| official := official (_mintGroup tm);
                      jup := jup (_mintGroup tm);
                      extra := {[k]} ∪ extra (_mintGroup tm) |};
     _extraTokenList := _extraTokenList tm |}.

(** [LoadParams] of [../type]: the option [load] reads. *)
Record LoadParams := {
  forceUpdate : option bool;
}.

(** [!b] and [b] as a condition, for a boolean that may be [undefined]. *)
Definition bool_truthy (b : option bool) : bool := default false b.

Section Methods.
Context (env : Env).

(* ------------------------------------------------------------------- *)
(** *** [src/gfx/client.ts] *)

(** [isCacheInvalidate(time)] *)
Definition isCacheInvalidate (time : Z) : M bool :=
  now ← Date_now;
  c ← get_client;
  mret (now - time >? _apiCacheTime c).

(** The [try { ... } catch (e) { ... }] block of [fetchJupTokenList]. *)
Definition refetchJupTokenList : M (list ApiV3Token) :=
  try_catch
    (jupList ← await EvGetJupTokenList (api_getJupTokenList env);
     now ← Date_now;
     modify_client
       (set_jupTokenList (Some {| fetched := now; data := jupList |}));;
     mret jupList)
    (fun e => emit (EvConsoleError e);; mret []).

(** [fetchJupTokenList(forceUpdate?)] *)
Definition fetchJupTokenList (forceUpdate : option bool)
    : M (list ApiV3Token) :=
  c ← get_client;
  match apiData_jupTokenList c with
  | Some prevFetched =>
      invalid ← isCacheInvalidate (fetched prevFetched);
      if (negb invalid && negb (bool_truthy forceUpdate))%bool
      then mret (data prevFetched)
      else refetchJupTokenList
  | None => refetchJupTokenList
  end.

(** [fetchEpochInfo()]. In the object literal [fetched: Date.now()] is
    evaluated before [value: await ...getEpochInfo()], and the field is
    assigned only once the promise has resolved. *)
Definition refetchEpochInfo : M EpochInfo :=
  fetched_at ← Date_now;
  value ← await EvGetEpochInfo (connection_getEpochInfo env);
  modify_client
    (set_epochInfo
       (Some {| epoch_fetched := fetched_at; epoch_value := value |}));;
  mret value.

Definition fetchEpochInfo : M EpochInfo :=
  c ← get_client;
  match _epochInfo c with
  | Some cached =>
      now ← Date_now;
      if now - epoch_fetched cached <=? 1000 * 30
      then mret (epoch_value cached)
      else refetchEpochInfo
  | None => refetchEpochInfo
  end.

(* ------------------------------------------------------------------- *)
(** *** [src/gfx/token/token.ts] *)

(** The record [load] stores for an entry of the Jupiter list:
    [{ ...token, type: "jupiter", priority: 1,
       programId: token.programId ?? (token.tags.includes("token-2022") ? ... : ...) }] *)
Definition jup_entry (token : ApiV3Token) : TokenInfo :=
  {| chainId := chainId token;
     address := address token;
     programId :=
       Some (match programId token with
             | Some p => p
             | None =>
                 if includes (tags token) "token-2022"
                 then TOKEN_2022_PROGRAM_ID else TOKEN_PROGRAM_ID
             end);
     logoURI := logoURI token;
     symbol := symbol token;
     name := name token;
     decimals := decimals token;
     tags := tags token;
     extensions := extensions token;
     priority := Some 1;
     type := Some "jupiter" |}.

(** The record [load] stores for an entry of [_extraTokenList]:
    [{ ...token, type: "extra", priority: 1,
       programId: token.programId || token.tags.includes("token-2022") ? ... : ... }].
    [||] binds tighter than [? :], so the condition of the conditional is
    [token.programId || token.tags.includes("token-2022")]. *)
Definition extra_entry (token : TokenInfo) : TokenInfo :=
  {| chainId := chainId token;
     address := address token;
     programId :=
       Some (if (match programId token with
                 | Some p => str_truthy p
                 | None => false
                 end || includes (tags token) "token-2022")%bool
             then TOKEN_2022_PROGRAM_ID else TOKEN_PROGRAM_ID);
     logoURI := logoURI token;
     symbol := symbol token;
     name := name token;
     decimals := decimals token;
     tags := tags token;
     extensions := extensions token;
     priority := Some 1;
     type := Some "extra" |}.

(** The callbacks of the two [forEach] loops of [load]. *)
Definition load_jup_step (tm : TokenModule) (token : ApiV3Token)
    : TokenModule :=
  jup_add (address token)
    (tokenMap_set (address token) (jup_entry token) tm).

Definition load_extra_step (tm : TokenModule) (token : TokenInfo)
    : TokenModule :=
  extra_add (address token)
    (tokenMap_set (address token) (extra_entry token) tm).

(** [// reset all data] *)
Definition load_reset (tm : TokenModule) : TokenModule :=
  {| _tokenList := [];
     _tokenMap := [];
     _mintGroup := {| official := ∅; jup := ∅; extra := ∅ |};
     _extraTokenList := _extraTokenList tm |}.

(** [this._tokenList = Array.from(this._tokenMap).map((data) => data[1])] *)
Definition load_publish (tm : TokenModule) : TokenModule :=
  {| _tokenList := map_values (_tokenMap tm);
     _tokenMap := _tokenMap tm;
     _mintGroup := _mintGroup tm;
     _extraTokenList := _extraTokenList tm |}.

(** Everything [load] does to the module once the list has arrived. *)
Definition load_rebuild (jupList : list ApiV3Token) (tm : TokenModule)
    : TokenModule :=
  let tm := load_reset tm in
  let tm := tokenMap_set (address (SOL_INFO env)) (SOL_INFO env) tm in
  let tm := official_add (address (SOL_INFO env)) tm in
  let tm := fold_left load_jup_step jupList tm in
  let tm := fold_left load_extra_step (_extraTokenList tm) tm in
  load_publish tm.

(** [const { forceUpdate = false } = params || {}] *)
Definition load_forceUpdate (params : option LoadParams) : bool :=
  match params with
  | Some p => default false (forceUpdate p)
  | None => false
  end.

(** [load(params?)] *)
Definition load (params : option LoadParams) : M unit :=
  lift (match checkDisabled env with
        | Some e => Throw e
        | None => Ok tt
        end);;
  jupList ← fetchJupTokenList (Some (load_forceUpdate params));
  modify_client (set_token (load_rebuild jupList)).

(** [get tokenList()], [get tokenMap()], [get mintGroup()] *)
Definition tokenList (tm : TokenModule) : list TokenInfo := _tokenList tm.
Definition tokenMap (tm : TokenModule) : JsMap TokenInfo := _tokenMap tm.
Definition mintGroup (tm : TokenModule) : MintGroup := _mintGroup tm.

(** The record the ledger tier of [getTokenInfo] builds. *)
Definition fullInfo (mintStr : string) (onlineInfo : AccountInfo)
    (data : RawMint) : TokenInfo :=
  let mintSymbol := String.substring 0 6 mintStr in
  {| chainId := 101;
     address := mintStr;
     programId := Some (owner onlineInfo);
     logoURI := "";
     symbol := mintSymbol;
     name := mintSymbol;
     decimals := mint_decimals data;
     tags := [];
     extensions := {| coingeckoId := None; feeConfig := None |};
     priority := Some 0;
     type := Some "unknown" |}.

(** [{ ...apiTokenInfo, priority: 2 }] *)
Definition with_priority (p : Z) (t : ApiV3Token) : TokenInfo :=
  {| chainId := chainId t;
     address := address t;
     programId := programId t;
     logoURI := logoURI t;
     symbol := symbol t;
     name := name t;
     decimals := decimals t;
     tags := tags t;
     extensions := extensions t;
     priority := Some p;
     type := type t |}.

(** [getTokenInfo(mint)], for [mint] given as text (a [PublicKey]
    argument is turned into its base-58 text first). *)
Definition getTokenInfo (mint : string) : M ApiV3Token :=
  if negb (str_truthy mint) then throw (Error "please input mint") else
  let mintStr := mint in
  c ← get_client;
  match map_get mintStr (_tokenMap (token c)) with
  | Some info => mret info
  | None =>
      if String.eqb (toLocaleUpperCase mintStr) "SOL"
      then mret (SOL_INFO env)
      else
        res ← await (EvGetTokenInfo [mintStr])
                    (api_getTokenInfo env [mintStr]);
        match head res with
        | Some (Some apiTokenInfo) =>
            modify_client (set_token (extra_add mintStr));;
            modify_client
              (set_token
                 (tokenMap_set mintStr (with_priority 2 apiTokenInfo)));;
            mret apiTokenInfo
        | _ =>
            pubkey ← lift (PublicKey_new env mintStr);
            onlineInfo ← await (EvGetAccountInfo pubkey)
                               (connection_getAccountInfo env pubkey);
            match onlineInfo with
            | None => throw (Error ("mint address not found: " ++ mintStr))
            | Some onlineInfo =>
                data ← lift (MintLayout_decode env (acc_data onlineInfo));
                let info := fullInfo mintStr onlineInfo data in
                modify_client (set_token (extra_add mintStr));;
                modify_client (set_token (tokenMap_set mintStr info));;
                mret info
            end
        end
  end.

(** [static async load(config)]: build the client, then load the token
    module unless told not to. *)
Definition GfxCpmmClient_load (config : ClientLoadParams) : M unit :=
  let custom := merge_defaults config in
  modify_client (fun _ => new_GfxCpmmClient custom);;
  if negb (disableLoadToken config)
  then load (Some {| forceUpdate := None |})
  else mret tt.

End Methods.

(* ===================================================================== *)
(** ** [src/api/api.ts]: [endlessRetry] *)
(* ===================================================================== *)

Section EndlessRetry.
(** [T] is the type of the values [call] resolves to; [nullish v] says
    that [v == undefined] holds, that is, [v] is [undefined] or [null]. *)
Context {T : Type} (nullish : T -> bool).

(** [result == undefined], for the variable [result] which starts out
    [undefined] ([None]). *)
Definition result_undefined (result : option T) : bool :=
  match result with
  | Some v => nullish v
  | None => true
  end.

(** The statements of the [try] block: the log line, then [call]. *)
Definition retry_attempt (name : string) (call : M T) : M T :=
  emit (EvLoggerDebug ("Request " ++ name ++ " through endlessRetry"));;
  call.

(** The statements of the [catch] block: the log line, then the sleep. *)
Definition retry_backoff (name : string) (interval : Z) (err : Exn)
    : M unit :=
  emit (EvLoggerError
          ("Request " ++ name ++ " failed, retry after "
           ++ pretty interval ++ " ms") err);;
  sleep interval.

(** The body of the [while] loop: the value of [result] after it. *)
Definition endlessRetry_body (name : string) (call : M T) (interval : Z)
    (result : option T) : M (option T) :=
  try_catch
    (v ← retry_attempt name call;
     mret (Some v))
    (fun err =>
       retry_backoff name interval err;;
       mret result).

(** The loop, cut off after [fuel] iterations: [Some v] when the loop was
    left and [v] returned, [None] when it is still running. *)
Fixpoint endlessRetry_loop (fuel : nat) (name : string) (call : M T)
    (interval : Z) (result : option T) : M (option T) :=
  if result_undefined result then
    match fuel with
    | O => mret None
    | S fuel' =>
        result' ← endlessRetry_body name call interval result;
        endlessRetry_loop fuel' name call interval result'
    end
  else mret result.

(** [endlessRetry(name, call, interval = 1000)] *)
Definition endlessRetry (fuel : nat) (name : string) (call : M T)
    (interval : option Z) : M (option T) :=
  endlessRetry_loop fuel name call (default 1000 interval) None.

(** The runs of the loop that end: [retries_to name call interval st n v st']
    says that, started in [st], the [n]-th invocation of [call] is the
    first to resolve to a value that is not nullish, namely [v], leaving
    the state [st']; every invocation before it either failed, and was
    followed by one error log and one sleep of [interval], or resolved to
    a nullish value, and was followed at once by the next invocation. *)
Inductive retries_to (name : string) (call : M T) (interval : Z)
    : St -> nat -> T -> St -> Prop :=
| retries_done st v st' :
    retry_attempt name call st = (Ok v, st') ->
    nullish v = false ->
    retries_to name call interval st 1 v st'
| retries_failed st e st1 st2 n v st' :
    retry_attempt name call st = (Throw e, st1) ->
    retry_backoff name interval e st1 = (Ok tt, st2) ->
    retries_to name call interval st2 n v st' ->
    retries_to name call interval st (S n) v st'
| retries_nullish st u st1 n v st' :
    retry_attempt name call st = (Ok u, st1) ->
    nullish u = true ->
    retries_to name call interval st1 n v st' ->
    retries_to name call interval st (S n) v st'.

End EndlessRetry.

(* ===================================================================== *)
(** ** The layout decoder and the CPMM account layouts *)
(* ===================================================================== *)

(** The layouts [CpmmConfigInfoLayout] and [CpmmPoolInfoLayout] are in the
    sources; the engine they are written in ([@/marshmallow]: [struct],
    [blob], [u8], ..., and their [decode] and [encode]) is not, and is
    taken from sections 3 and 4.1 of the specification. Both layouts
    declare their 8-byte prefix as [blob(8)] and their reserved words as
    [seq(u64(), n)], without a name. By section 4.1 the prefix a schema
    begins with is "preserved verbatim on encode", and the other fields
    without a name are padding, "zero-filled on encode". *)
Module Layout.

(** Modelled from the spec: the field kinds of [@/marshmallow], whose
    definitions are missing. "fixed-width numeric kinds have a canonical
    width - 1/2/8/16 bytes - a 32-byte fixed kind for public identifiers,
    or a boolean 1-byte kind"; [Blob n] is the [blob(n)] the layouts
    start with, [n] uninterpreted bytes. *)
Inductive Kind :=
| U8 | U16 | U64 | U128
| PublicKey
| Bool
| Blob (n : nat).

(** Modelled from the spec: the canonical width of a kind, in bytes. *)
Definition width (k : Kind) : nat :=
  match k with
  | U8 => 1 | U16 => 2 | U64 => 8 | U128 => 16
  | PublicKey => 32
  | Bool => 1
  | Blob n => n
  end.

(** Modelled from the spec: [FieldSpec], "[name] (string, absent for
    padding), [width], optional [repeat] (produces an ordered sequence of
    [repeat] homogeneous sub-values instead of a scalar)". *)
Record FieldSpec := {
  f_name : option string;
  f_kind : Kind;
  f_repeat : option nat;
}.

(** Modelled from the spec: "A schema is an ordered sequence of
    FieldSpec." *)
Definition Schema := list FieldSpec.

(** Modelled from the spec: "total byte length = sum of field widths
    (scalars) or width x repeat (sequences)". *)
Definition field_width (f : FieldSpec) : nat :=
  match f_repeat f with
  | Some n => (width (f_kind f) * n)%nat
  | None => width (f_kind f)
  end.

Definition totalWidth (s : Schema) : nat :=
  foldr (fun f acc => (field_width f + acc)%nat) 0%nat s.

(** Modelled from the spec: the builders of [@/marshmallow] the layouts
    are written with, as makers of [FieldSpec]; [None] is the omitted
    property name. *)
Definition scalar (k : Kind) (property : option string) : FieldSpec :=
  {| f_name := property; f_kind := k; f_repeat := None |}.
Definition blob (n : nat) (property : option string) : FieldSpec :=
  scalar (Blob n) property.
Definition u8 := scalar U8.
Definition u16 := scalar U16.
Definition u64 := scalar U64.
Definition u128 := scalar U128.
Definition publicKey := scalar PublicKey.
Definition bool' := scalar Bool.
Definition seq (elem : FieldSpec) (count : nat) (property : option string)
    : FieldSpec :=
  {| f_name := property; f_kind := f_kind elem; f_repeat := Some count |}.
Definition struct (fields : list FieldSpec) : Schema := fields.

(** [src/unnamed/part_000], lines 3-16 *)
Definition CpmmConfigInfoLayout : Schema :=
  struct [
    blob 8 None;
    u8 (Some "bump");
    bool' (Some "disableCreatePool");
    u16 (Some "index");
    u64 (Some "tradeFeeRate");
    u64 (Some "protocolFeeRate");
    u64 (Some "fundFeeRate");
    u64 (Some "createPoolFee");

    publicKey (Some "protocolOwner");
    publicKey (Some "fundOwner");
    seq (u64 None) 16 None
  ].

(** [src/unnamed/part_000], lines 18-55 *)
Definition CpmmPoolInfoLayout : Schema :=
  struct [
    blob 8 None;

    publicKey (Some "configId");
    publicKey (Some "poolCreator");
    publicKey (Some "vaultA");
    publicKey (Some "vaultB");

    publicKey (Some "mintLp");
    publicKey (Some "mintA");
    publicKey (Some "mintB");

    publicKey (Some "mintProgramA");
    publicKey (Some "mintProgramB");

    publicKey (Some "observationId");

    u8 (Some "bump");
    u8 (Some "status");

    u8 (Some "lpDecimals");
    u8 (Some "mintDecimalA");
    u8 (Some "mintDecimalB");

    u64 (Some "lpAmount");
    u64 (Some "protocolFeesMintA");
    u64 (Some "protocolFeesMintB");
    u64 (Some "fundFeesMintA");
    u64 (Some "fundFeesMintB");
    u64 (Some "openTime");
    u64 (Some "recentEpoch");
    u128 (Some "tradeFeesTokenA");
    u128 (Some "tradeFeesTokenB");
    u128 (Some "cumulativeVolumeTokenA");
    u128 (Some "cumulativeVolumeTokenB");

    seq (u64 None) 23 None
  ].

(** Modelled from the spec: a decoded value, "scalar or ordered
    sequence". *)
Inductive Value :=
| VNum (n : N)
| VBool (b : bool)
| VKey (s : string)
| VBytes (bs : list byte)
| VSeq (vs : list Value).

(** Modelled from the spec: the "pluggable codec" between a 32-byte
    field and its "canonical base-58-style account-identifier string";
    writing back what was read gives the bytes read. *)
Class KeyCodec := {
  key_to_string : list byte -> string;
  key_of_string : string -> option (list byte);
  key_of_to_string bs :
    length bs = 32%nat -> key_of_string (key_to_string bs) = Some bs;
}.

(** Modelled from the spec: "fixed-width little-endian unsigned
    integers". *)
Fixpoint le_decode (bs : list byte) : N :=
  match bs with
  | [] => 0%N
  | b :: bs' => (Byte.to_N b + 256 * le_decode bs')%N
  end.

(** Modelled from the spec: the [w] little-endian bytes of [n]. *)
Definition byte_of_N (n : N) : byte := default x00 (Byte.of_N n).

Fixpoint le_encode (w : nat) (n : N) : list byte :=
  match w with
  | O => []
  | S w' => byte_of_N (n mod 256) :: le_encode w' (n / 256)
  end.

(** Modelled from the spec: the bytes of a sequence field, cut into its
    [count] elements of [w] bytes. *)
Fixpoint chunks (w count : nat) (bs : list byte) : list (list byte) :=
  match count with
  | O => []
  | S count' => take w bs :: chunks w count' (drop w bs)
  end.

Section Codec.
Context `{KeyCodec}.

(** Modelled from the spec: decoding one element of kind [k] from its
    [width k] bytes. "a boolean field is 1 byte, canonically 0 or 1
    (implementations should tolerate non-0/1 by treating nonzero as
    true ...)". *)
Definition decode_kind (k : Kind) (bs : list byte) : Value :=
  match k with
  | U8 | U16 | U64 | U128 => VNum (le_decode bs)
  | PublicKey => VKey (key_to_string bs)
  | Bool => VBool (negb (N.eqb (le_decode bs) 0))
  | Blob _ => VBytes bs
  end.

(** Modelled from the spec: encoding one element; [None] when the value
    is not of the field's kind. *)
Definition encode_kind (k : Kind) (v : Value) : option (list byte) :=
  match k, v with
  | (U8 | U16 | U64 | U128), VNum n => Some (le_encode (width k) n)
  | PublicKey, VKey s =>
      bs ← key_of_string s;
      if decide (length bs = 32%nat) then Some bs else None
  | Bool, VBool b => Some [if b then x01 else x00]
  | Blob n, VBytes bs => if decide (length bs = n) then Some bs else None
  | _, _ => None
  end.

(** Modelled from the spec: a field is a scalar, or "a fixed-length
    ordered list of the element kind". *)
Definition decode_field (f : FieldSpec) (bs : list byte) : Value :=
  match f_repeat f with
  | Some n =>
      VSeq (decode_kind (f_kind f) <$> chunks (width (f_kind f)) n bs)
  | None => decode_kind (f_kind f) bs
  end.

(** Modelled from the spec: encoding a field, the inverse of
    [decode_field]; a sequence must have its [repeat] elements. *)
Definition encode_field (f : FieldSpec) (v : Value)
    : option (list byte) :=
  match f_repeat f, v with
  | Some n, VSeq vs =>
      if decide (length vs = n)
      then @concat byte <$> mapM (encode_kind (f_kind f)) vs
      else None
  | None, v => encode_kind (f_kind f) v
  | _, _ => None
  end.

(** Modelled from the spec: "Each schema begins with an 8-byte opaque
    discriminator prefix that this layer does not interpret - it is
    preserved verbatim on encode and skipped (not validated) on decode".
    The prefix of a schema is the [blob(n)] without a name that it begins
    with, as both layouts do; a schema that begins otherwise has none. *)
Definition is_prefix (f : FieldSpec) : bool :=
  match f_name f, f_kind f, f_repeat f with
  | None, Blob _, None => true
  | _, _, _ => false
  end.

Definition prefix_width (s : Schema) : nat :=
  match s with
  | f :: _ => if is_prefix f then field_width f else 0%nat
  | [] => 0%nat
  end.

(** The fields after the prefix. *)
Definition body (s : Schema) : Schema :=
  match s with
  | f :: s' => if is_prefix f then s' else s
  | [] => []
  end.

(** Modelled from the spec: [Record], "a mapping from field name to
    value". The opaque prefix has no name; to be "preserved verbatim on
    encode" it travels with the record, uninterpreted. *)
Record DecodedRecord := {
  rec_prefix : list byte;
  rec_fields : gmap string Value;
}.

(** Modelled from the spec: "decode MUST consume bytes strictly in
    schema order with zero gaps or overlaps"; "padding fields (no name)
    are skipped on decode". *)
Fixpoint decode_fields (s : Schema) (bs : list byte)
    (acc : gmap string Value) : gmap string Value :=
  match s with
  | [] => acc
  | f :: s' =>
      let here := take (field_width f) bs in
      let rest := drop (field_width f) bs in
      decode_fields s' rest
        (match f_name f with
         | Some n => <[n := decode_field f here]> acc
         | None => acc
         end)
  end.

(** Modelled from the spec: "[decode(schema, buffer) -> Record], fails
    with a [LengthMismatch] condition if
    [buffer.length != schema.totalWidth]" ([None]). *)
Definition decode (s : Schema) (buffer : list byte)
    : option DecodedRecord :=
  if decide (length buffer = totalWidth s)
  then Some {| rec_prefix := take (prefix_width s) buffer;
               rec_fields :=
                 decode_fields (body s) (drop (prefix_width s) buffer) ∅ |}
  else None.

(** Modelled from the spec: encoding the fields after the prefix;
    padding fields are "zero-filled on encode". [None] when the record
    lacks a named field or holds a value of another kind. *)
Fixpoint encode_fields (s : Schema) (r : gmap string Value)
    : option (list byte) :=
  match s with
  | [] => Some []
  | f :: s' =>
      here ← match f_name f with
             | Some n => v ← r !! n; encode_field f v
             | None => Some (replicate (field_width f) x00)
             end;
      rest ← encode_fields s' r;
      Some (here ++ rest)%list
  end.

(** Modelled from the spec: "[encode(schema, Record) -> buffer]"; the
    prefix is "preserved verbatim on encode". [None] also when the
    record's prefix is not as wide as the schema's. *)
Definition encode (s : Schema) (r : DecodedRecord) : option (list byte) :=
  if decide (length (rec_prefix r) = prefix_width s)
  then rest ← encode_fields (body s) (rec_fields r);
       Some (rec_prefix r ++ rest)%list
  else None.

End Codec.

(** The names of the named fields of a schema. *)
Definition names (s : Schema) : list string :=
  omap f_name s.

(** A valid schema: no two fields share a name, the record being keyed
    by name. *)
Definition valid (s : Schema) : Prop :=
  NoDup (names s).

(** The buffer with the bytes of its padding fields set to zero, field by
    field after the prefix. *)
Definition zero_field (f : FieldSpec) (bs : list byte) : list byte :=
  match f_name f with
  | None => replicate (field_width f) x00
  | Some _ => bs
  end.

Fixpoint zero_fields (s : Schema) (bs : list byte) : list byte :=
  match s with
  | [] => []
  | f :: s' =>
      (zero_field f (take (field_width f) bs)
       ++ zero_fields s' (drop (field_width f) bs))%list
  end.

Definition zero_padding (s : Schema) (buffer : list byte) : list byte :=
  (take (prefix_width s) buffer
   ++ zero_fields (body s) (drop (prefix_width s) buffer))%list.

(** The bytes of the boolean fields of a buffer are "canonically 0 or
    1". *)
Definition canonical_kind (k : Kind) (bs : list byte) : bool :=
  match k, bs with
  | Bool, [b] => (Byte.eqb b x00 || Byte.eqb b x01)%bool
  | Bool, _ => false
  | _, _ => true
  end.

Definition canonical_field (f : FieldSpec) (bs : list byte) : bool :=
  match f_name f with
  | None => true
  | Some _ =>
      match f_repeat f with
      | Some n =>
          forallb (canonical_kind (f_kind f))
                  (chunks (width (f_kind f)) n bs)
      | None => canonical_kind (f_kind f) bs
      end
  end.

Fixpoint canonical_fields (s : Schema) (bs : list byte) : bool :=
  match s with
  | [] => true
  | f :: s' =>
      (canonical_field f (take (field_width f) bs)
       && canonical_fields s' (drop (field_width f) bs))%bool
  end.

Definition canonical_bools (s : Schema) (buffer : list byte) : bool :=
  canonical_fields (body s) (drop (prefix_width s) buffer).

(** The round-trip law as the specification states it. *)
Definition round_trip `{KeyCodec} (s : Schema) (buffer : list byte) : Prop :=
  exists r, decode s buffer = Some r /\ encode s r = Some buffer.

(** A codec to run examples with: the 32 bytes as 32 characters. *)
#[local] Program Instance raw_codec : KeyCodec := {|
  key_to_string := string_of_list_byte;
  key_of_string := fun s => Some (list_byte_of_string s);
|}.
Next Obligation.
  intros bs _. cbn. f_equal. apply list_byte_of_string_of_list_byte.
Qed.

End Layout.

(* ===================================================================== *)
(** ** Vocabulary of the properties *)
(* ===================================================================== *)

(** The last entry of [l] whose address is [addr]. *)
Fixpoint last_with (addr : string) (l : list TokenInfo) : option TokenInfo :=
  match l with
  | [] => None
  | t :: l' =>
      match last_with addr l' with
      | Some t' => Some t'
      | None => if String.eqb (address t) addr then Some t else None
      end
  end.

(** Last write wins over the sources in the order official, external,
    curated: the record of the last source that has the address. *)
Definition merged (env : Env) (jupList extraList : list TokenInfo)
    (addr : string) : option TokenInfo :=
  match last_with addr extraList with
  | Some t => Some (extra_entry t)
  | None =>
      match last_with addr jupList with
      | Some t => Some (jup_entry t)
      | None =>
          if String.eqb (address (SOL_INFO env)) addr
          then Some (SOL_INFO env) else None
      end
  end.

(** The error [getTokenInfo] raises for an address no tier knows
    ([UnknownMint] in the specification). *)
Definition UnknownMint (mintStr : string) : Exn :=
  Error ("mint address not found: " ++ mintStr).

(** The states reachable by calls of [getTokenInfo], whatever their
    arguments and outcomes. *)
Inductive resolves (env : Env) : St -> St -> Prop :=
| resolves_refl st : resolves env st st
| resolves_step st mint r st1 st2 :
    getTokenInfo env mint st = (r, st1) ->
    resolves env st1 st2 ->
    resolves env st st2.

(** How often the token list, and the epoch, were requested. *)
Definition is_jup_fetch (ev : Event) : bool :=
  match ev with EvGetJupTokenList => true | _ => false end.

Definition is_epoch_fetch (ev : Event) : bool :=
  match ev with EvGetEpochInfo => true | _ => false end.

Definition jup_fetches (w : World) : nat :=
  length (List.filter is_jup_fetch (history w)).

Definition epoch_fetches (w : World) : nat :=
  length (List.filter is_epoch_fetch (history w)).

(** The first element of the API's answer is no record: the array is empty
    or starts with [null]. *)
Definition api_no_record (res : list (option ApiV3Token)) : Prop :=
  head res = None \/ head res = Some None.

(** The world once the metadata API has answered after [dt] ms. *)
Definition after_api (mint : string) (w : World) (dt : N) : World :=
  {| clock := clock w + Z.of_N dt;
     history := history w ++ [EvGetTokenInfo [mint]] |}.

(** The ways a call [getTokenInfo(mint)] on a non-empty [mint] ends, with
    the remote calls it made, in order: [resolution env mint st r tr].
    Each way lists what the earlier tiers answered. *)
Inductive resolution (env : Env) (mint : string) (st : St)
    : Outcome ApiV3Token -> list Event -> Prop :=
| res_table info :
    map_get mint (_tokenMap (token (client st))) = Some info ->
    resolution env mint st (Ok info) []
| res_alias :
    map_get mint (_tokenMap (token (client st))) = None ->
    String.eqb (toLocaleUpperCase mint) "SOL" = true ->
    resolution env mint st (Ok (SOL_INFO env)) []
| res_api_rejected e dt :
    map_get mint (_tokenMap (token (client st))) = None ->
    String.eqb (toLocaleUpperCase mint) "SOL" = false ->
    api_getTokenInfo env [mint] (world st) = (Throw e, dt) ->
    resolution env mint st (Throw e) [EvGetTokenInfo [mint]]
| res_api res dt apiTokenInfo :
    map_get mint (_tokenMap (token (client st))) = None ->
    String.eqb (toLocaleUpperCase mint) "SOL" = false ->
    api_getTokenInfo env [mint] (world st) = (Ok res, dt) ->
    head res = Some (Some apiTokenInfo) ->
    resolution env mint st (Ok apiTokenInfo) [EvGetTokenInfo [mint]]
| res_key_rejected res dt e :
    map_get mint (_tokenMap (token (client st))) = None ->
    String.eqb (toLocaleUpperCase mint) "SOL" = false ->
    api_getTokenInfo env [mint] (world st) = (Ok res, dt) ->
    api_no_record res ->
    PublicKey_new env mint = Throw e ->
    resolution env mint st (Throw e) [EvGetTokenInfo [mint]]
| res_ledger_rejected res dt pubkey e dt' :
    map_get mint (_tokenMap (token (client st))) = None ->
    String.eqb (toLocaleUpperCase mint) "SOL" = false ->
    api_getTokenInfo env [mint] (world st) = (Ok res, dt) ->
    api_no_record res ->
    PublicKey_new env mint = Ok pubkey ->
    connection_getAccountInfo env pubkey (after_api mint (world st) dt)
      = (Throw e, dt') ->
    resolution env mint st (Throw e)
      [EvGetTokenInfo [mint]; EvGetAccountInfo pubkey]
| res_ledger_absent res dt pubkey dt' :
    map_get mint (_tokenMap (token (client st))) = None ->
    String.eqb (toLocaleUpperCase mint) "SOL" = false ->
    api_getTokenInfo env [mint] (world st) = (Ok res, dt) ->
    api_no_record res ->
    PublicKey_new env mint = Ok pubkey ->
    connection_getAccountInfo env pubkey (after_api mint (world st) dt)
      = (Ok None, dt') ->
    resolution env mint st (Throw (UnknownMint mint))
      [EvGetTokenInfo [mint]; EvGetAccountInfo pubkey]
| res_decode_rejected res dt pubkey onlineInfo dt' e :
    map_get mint (_tokenMap (token (client st))) = None ->
    String.eqb (toLocaleUpperCase mint) "SOL" = false ->
    api_getTokenInfo env [mint] (world st) = (Ok res, dt) ->
    api_no_record res ->
    PublicKey_new env mint = Ok pubkey ->
    connection_getAccountInfo env pubkey (after_api mint (world st) dt)
      = (Ok (Some onlineInfo), dt') ->
    MintLayout_decode env (acc_data onlineInfo) = Throw e ->
    resolution env mint st (Throw e)
      [EvGetTokenInfo [mint]; EvGetAccountInfo pubkey]
| res_ledger res dt pubkey onlineInfo dt' raw :
    map_get mint (_tokenMap (token (client st))) = None ->
    String.eqb (toLocaleUpperCase mint) "SOL" = false ->
    api_getTokenInfo env [mint] (world st) = (Ok res, dt) ->
    api_no_record res ->
    PublicKey_new env mint = Ok pubkey ->
    connection_getAccountInfo env pubkey (after_api mint (world st) dt)
      = (Ok (Some onlineInfo), dt') ->
    MintLayout_decode env (acc_data onlineInfo) = Ok raw ->
    resolution env mint st (Ok (fullInfo mint onlineInfo raw))
      [EvGetTokenInfo [mint]; EvGetAccountInfo pubkey].

(* --------------------------------------------------------------------- *)
(** *** Statements of the specification that the code does not satisfy *)

(** Section 7: the fallback chain of [resolve] "swallows intermediate
    failures (API error, ledger-not-found) and only surfaces [UnknownMint]
    once every tier is exhausted". *)
Definition only_UnknownMint_escapes (env : Env) (mint : string) (st : St)
    : Prop :=
  forall e st',
    getTokenInfo env mint st = (Throw e, st') ->
    e = UnknownMint mint /\
    exists pubkey,
      history (world st') =
      (history (world st) ++ [EvGetTokenInfo [mint]; EvGetAccountInfo pubkey])%list.

(** Section 4.4 on the ledger tier: "synthesize a minimal record ...,
    insert under [curated], and return it", asking of the ledger only that
    the account exists. *)
Definition existing_account_resolves (env : Env) (mint : string) (st : St)
    : Prop :=
  forall res dt1 pubkey onlineInfo dt2,
    str_truthy mint = true ->
    map_get mint (_tokenMap (token (client st))) = None ->
    String.eqb (toLocaleUpperCase mint) "SOL" = false ->
    api_getTokenInfo env [mint] (world st) = (Ok res, dt1) ->
    api_no_record res ->
    PublicKey_new env mint = Ok pubkey ->
    connection_getAccountInfo env pubkey (after_api mint (world st) dt1)
      = (Ok (Some onlineInfo), dt2) ->
    exists info st',
      getTokenInfo env mint st = (Ok info, st') /\
      symbol info = String.substring 0 6 mint /\
      name info = String.substring 0 6 mint /\
      tags info = [] /\
      priority info = Some 0 /\
      type info = Some "unknown" /\
      programId info = Some (owner onlineInfo) /\
      map_get mint (_tokenMap (token (client st'))) = Some info /\
      mint ∈ extra (_mintGroup (token (client st'))).

(** The record [t] is the source's record [src] apart from the added
    [type] and [priority]. *)
Definition matches_source (t src : TokenInfo) : Prop :=
  chainId t = chainId src /\
  address t = address src /\
  programId t = programId src /\
  logoURI t = logoURI src /\
  symbol t = symbol src /\
  name t = name src /\
  decimals t = decimals src /\
  tags t = tags src /\
  extensions t = extensions src.

(** The fields that both loops of [load] copy from the source record. *)
Definition same_fields (t src : TokenInfo) : Prop :=
  chainId t = chainId src /\
  address t = address src /\
  logoURI t = logoURI src /\
  symbol t = symbol src /\
  name t = name src /\
  decimals t = decimals src /\
  tags t = tags src /\
  extensions t = extensions src.

(** The program that the tags of a record stand for. *)
Definition programId_from_tags (src : TokenInfo) : string :=
  if includes (tags src) "token-2022"
  then TOKEN_2022_PROGRAM_ID else TOKEN_PROGRAM_ID.

(** The record of the last source list, in the order external, curated,
    that has the address. *)
Definition last_source (jupList extraList : list TokenInfo) (addr : string)
    : option TokenInfo :=
  match last_with addr extraList with
  | Some src => Some src
  | None => last_with addr jupList
  end.

(** Section 8: after [load], "for every address present in the external
    or curated source lists, the table's record matches that source's
    version unless a later-merged source ... supplied a different record
    for the same address". *)
Definition table_matches_sources (env : Env) (params : option LoadParams)
    (st : St) : Prop :=
  forall jupList st1 st',
    fetchJupTokenList env (Some (load_forceUpdate params)) st
      = (Ok jupList, st1) ->
    load env params st = (Ok tt, st') ->
    forall addr src,
      last_source jupList (_extraTokenList (token (client st))) addr
        = Some src ->
      exists t,
        map_get addr (_tokenMap (token (client st'))) = Some t /\
        matches_source t src.

(** Section 4.3: "call [fetchFn], and on success wrap the result with the
    current timestamp": once a refresh of the epoch has succeeded, the
    cache holds its result under the time at which it came in. *)
Definition epoch_stamped_on_success (env : Env) (st : St) : Prop :=
  forall v st',
    fetchEpochInfo env st = (Ok v, st') ->
    epoch_fetches (world st') = S (epoch_fetches (world st)) ->
    _epochInfo (client st')
    = Some {| epoch_fetched := clock (world st'); epoch_value := v |}.

(** Section 4.3: on a failed refresh "the stale cached value (if any) is
    preserved and the error propagates to the caller"; section 8: the
    caller is served the prior successful value. *)
Definition failed_refresh_serves_stale (env : Env) (forceUpdate : option bool)
    (st : St) : Prop :=
  forall e dt r st',
    api_getJupTokenList env (world st) = (Throw e, dt) ->
    fetchJupTokenList env forceUpdate st = (r, st') ->
    jup_fetches (world st') = S (jup_fetches (world st)) ->
    apiData_jupTokenList (client st') = apiData_jupTokenList (client st) /\
    match apiData_jupTokenList (client st) with
    | Some prevFetched => r = Ok (data prevFetched)
    | None => r = Throw e
    end.

(** Section 4.2: "on success returns its value immediately": the value of
    the first invocation that succeeds is returned, in the state that
    invocation left. *)
Definition returns_first_success {T} (nullish : T -> bool) (name : string)
    (call : M T) (interval : option Z) (st : St) : Prop :=
  forall v st',
    retry_attempt name call st = (Ok v, st') ->
    forall fuel,
      endlessRetry nullish (S fuel) name call interval st = (Ok (Some v), st').

(* ===================================================================== *)
(** ** Concrete tokens, collaborators and states *)
(* ===================================================================== *)

Definition USDC : string := "EPjFWdd5AufqSSqeM2qN1xzybapC8G4wEGGkZwyTDt1v".
Definition BONK : string := "DezXAZ8z7PnrnRJjz3wXBoRgixCa6xjnB7YaB1pPB263".
Definition SAMO : string := "7xKXtg2CW87d97TXJSDpbD5jBkheTqA83TZRuJosgAsU".
Definition JUP : string := "JUPyiwrYJFskUPiHa7hkeR8VUtAeFoSYbKedZNsDvCN".

(** A token as a list delivers it: owned by the classic token program, no
    tags, no priority and no type yet. *)
Definition sample_token (addr sym : string) : TokenInfo :=
  {| chainId := 101; address := addr; programId := Some TOKEN_PROGRAM_ID;
     logoURI := ""; symbol := sym; name := sym; decimals := 6; tags := [];
     extensions := {| coingeckoId := None; feeConfig := None |};
     priority := None; type := None |}.

(** A native-asset entry to run examples with. *)
Definition sample_SOL_INFO : TokenInfo :=
  {| chainId := 101; address := "11111111111111111111111111111111";
     programId := Some TOKEN_PROGRAM_ID;
     logoURI := ""; symbol := "SOL"; name := "solana"; decimals := 9;
     tags := [];
     extensions := {| coingeckoId := Some "solana"; feeConfig := None |};
     priority := Some 0; type := Some "official" |}.

(** The mint layout of the token program has its [decimals] byte at
    offset 44 of 82. *)
Definition sample_MintLayout_decode (data : list byte) : Outcome RawMint :=
  match data !! 44%nat with
  | Some b =>
      if Nat.leb 82 (length data)
      then Ok {| mint_decimals := Z.of_N (Byte.to_N b) |}
      else Throw (Rejected "RangeError")
  | None => Throw (Rejected "RangeError")
  end.

Definition sample_mint_account : AccountInfo :=
  {| acc_data := replicate 44 x00 ++ [x09; x01] ++ replicate 36 x00;
     owner := TOKEN_PROGRAM_ID |}.

(** An environment in which every remote call fails. *)
Definition env_down : Env :=
  {| api_getJupTokenList := fun _ => (Throw (Rejected "Network Error"), 10%N);
     api_getTokenInfo := fun _ _ => (Throw (Rejected "Network Error"), 10%N);
     connection_getAccountInfo :=
       fun _ _ => (Throw (Rejected "fetch failed"), 10%N);
     connection_getEpochInfo :=
       fun _ => (Throw (Rejected "fetch failed"), 10%N);
     PublicKey_new := fun s => Ok s;
     MintLayout_decode := sample_MintLayout_decode;
     SOL_INFO := sample_SOL_INFO;
     checkDisabled := None |}.

(** An environment in which every remote call answers after 10 ms: the token
    list grows by one entry after its first delivery, the metadata API
    knows [JUP] only, and the ledger holds a mint account at [SAMO] only. *)
Definition env_up : Env :=
  {| api_getJupTokenList :=
       fun w =>
         (Ok (if Nat.eqb (jup_fetches w) 0
              then [sample_token USDC "USDC"]
              else [sample_token USDC "USDC"; sample_token BONK "Bonk"]),
          10%N);
     api_getTokenInfo :=
       fun mints _ =>
         (Ok (if includes mints JUP
              then [Some (sample_token JUP "JUP")] else []),
          10%N);
     connection_getAccountInfo :=
       fun pubkey _ =>
         (Ok (if String.eqb pubkey SAMO
              then Some sample_mint_account else None),
          10%N);
     connection_getEpochInfo :=
       fun w =>
         (Ok {| epoch_number := 600; slotIndex := clock w;
                slotsInEpoch := 432000;
                absoluteSlot := 259200000 + clock w |}, 10%N);
     PublicKey_new := fun s => Ok s;
     MintLayout_decode := sample_MintLayout_decode;
     SOL_INFO := sample_SOL_INFO;
     checkDisabled := None |}.

(** An account that is no mint: ten bytes of data, owned by the system
    program. *)
Definition sample_plain_account : AccountInfo :=
  {| acc_data := replicate 10 x00;
     owner := "11111111111111111111111111111111" |}.

(** An environment like [env_up] whose ledger holds that account at
    [BONK]. *)
Definition env_plain_account : Env :=
  {| api_getJupTokenList := api_getJupTokenList env_up;
     api_getTokenInfo := api_getTokenInfo env_up;
     connection_getAccountInfo :=
       fun pubkey _ =>
         (Ok (if String.eqb pubkey BONK
              then Some sample_plain_account else None),
          10%N);
     connection_getEpochInfo := connection_getEpochInfo env_up;
     PublicKey_new := PublicKey_new env_up;
     MintLayout_decode := MintLayout_decode env_up;
     SOL_INFO := sample_SOL_INFO;
     checkDisabled := None |}.

(** A token as a list delivers it when the list does not say which
    program owns it, the case [load] provides for with [??]. *)
Definition sample_token_bare (addr sym : string) (tgs : list string)
    : TokenInfo :=
  {| chainId := 101; address := addr; programId := None;
     logoURI := ""; symbol := sym; name := sym; decimals := 6; tags := tgs;
     extensions := {| coingeckoId := None; feeConfig := None |};
     priority := None; type := None |}.

(** An environment like [env_up] whose token list holds two such entries,
    the second one tagged [token-2022]. *)
Definition env_bare_list : Env :=
  {| api_getJupTokenList :=
       fun _ => (Ok [sample_token_bare USDC "USDC" [];
                     sample_token_bare BONK "Bonk" ["token-2022"]], 10%N);
     api_getTokenInfo := api_getTokenInfo env_up;
     connection_getAccountInfo := connection_getAccountInfo env_up;
     connection_getEpochInfo := connection_getEpochInfo env_up;
     PublicKey_new := PublicKey_new env_up;
     MintLayout_decode := MintLayout_decode env_up;
     SOL_INFO := sample_SOL_INFO;
     checkDisabled := None |}.

(** An environment whose external list has the native address too. *)
Definition env_collision : Env :=
  {| api_getJupTokenList :=
       fun _ => (Ok [sample_token (address sample_SOL_INFO) "jSOL";
                     sample_token USDC "USDC"], 10%N);
     api_getTokenInfo := api_getTokenInfo env_up;
     connection_getAccountInfo := connection_getAccountInfo env_up;
     connection_getEpochInfo := connection_getEpochInfo env_up;
     PublicKey_new := PublicKey_new env_up;
     MintLayout_decode := MintLayout_decode env_up;
     SOL_INFO := sample_SOL_INFO;
     checkDisabled := None |}.

(** Options: everything left to its default, or both interval options set
    to [t]; the token list is not loaded on construction. *)
Definition cfg_default : ClientLoadParams :=
  {| apiRequestInterval := None; apiRequestTimeout := None;
     apiCacheTime := None; disableLoadToken := true |}.

Definition cfg_interval (t : Z) : ClientLoadParams :=
  {| apiRequestInterval := Some t; apiRequestTimeout := None;
     apiCacheTime := Some t; disableLoadToken := true |}.

(** Options with [apiRequestInterval] alone set to [t]. *)
Definition cfg_requestInterval (t : Z) : ClientLoadParams :=
  {| apiRequestInterval := Some t; apiRequestTimeout := None;
     apiCacheTime := None; disableLoadToken := true |}.

(** A client just built from [cfg], at time [now]. *)
Definition st_fresh (cfg : ClientLoadParams) (now : Z) : St :=
  {| client := new_GfxCpmmClient (merge_defaults cfg);
     world := {| clock := now; history := [] |} |}.

(** A default client that cached the token list [[USDC]] at time 1000 and
    the epoch at time 1000, seen at time [now]. *)
Definition st_cached (now : Z) : St :=
  {| client :=
       set_epochInfo
         (Some {| epoch_fetched := 1000;
                  epoch_value := {| epoch_number := 600; slotIndex := 1000;
                                    slotsInEpoch := 432000;
                                    absoluteSlot := 259201000 |} |})
         (set_jupTokenList
            (Some {| fetched := 1000; data := [sample_token USDC "USDC"] |})
            (new_GfxCpmmClient (merge_defaults cfg_default)));
     world := {| clock := now; history := [] |} |}.

(** A default client whose curated list is [extraList]. *)
Definition st_curated (extraList : list TokenInfo) : St :=
  {| client :=
       set_token
         (fun tm =>
            {| _tokenList := _tokenList tm; _tokenMap := _tokenMap tm;
               _mintGroup := _mintGroup tm; _extraTokenList := extraList |})
         (new_GfxCpmmClient (merge_defaults cfg_default));
     world := {| clock := 1000; history := [] |} |}.

(** Two calls of [fetchJupTokenList()], [pause] ms apart. *)
Definition fetch_twice (env : Env) (pause : Z)
    : M (list ApiV3Token * list ApiV3Token) :=
  first ← fetchJupTokenList env None;
  sleep pause;;
  second ← fetchJupTokenList env None;
  mret (first, second).

(** The default client after [load] in [env_up], started at time 1000. *)
Definition st_loaded : St :=
  snd (load env_up None (st_fresh cfg_default 1000)).

(** A [call] that resolves to [undefined] on its first invocation and to 7
    afterwards: it resolves to [undefined] while the log holds one line. *)
Definition undefined_then_7 : M (option Z) :=
  fun st =>
    (Ok (if Nat.leb (length (history (world st))) 1 then None else Some 7),
     st).

(** A call that is rejected while the log holds one line, and resolves to
    7 afterwards. *)
Definition rejected_then_7 : M (option Z) :=
  fun st =>
    (if Nat.leb (length (history (world st))) 1
     then Throw (Rejected "timeout") else Ok (Some 7),
     st).

Definition is_undefined (v : option Z) : bool :=
  match v with None => true | Some _ => false end.

(** A configuration buffer that is zero but for the last byte of its
    reserved words. *)
Definition config_buffer_reserved_set : list byte :=
  replicate 235 x00 ++ [x01].

(** A configuration buffer with a discriminator, a bump of 254, pool
    creation disabled, index 3, and zero elsewhere. *)
Definition config_buffer_sample : list byte :=
  [x9b; x0c; xaa; xe0; x1e; xfa; xcc; x82]
  ++ [xfe; x01; x03; x00] ++ replicate 224 x00.

(* ===================================================================== *)
(** ** [src/api/api.ts]: the pool queries of [Api] *)
(* ===================================================================== *)

(** [API_URLS] ([src/unnamed/part_001]): the paths the queries use. *)
Module API_URLS.
Definition BASE_HOST : string := "https://amm-api.goose-fx.io".
Definition CPMM_CONFIG : string := "/main/config".
Definition MINT_INFO_ID : string := "/mint/ids".
Definition POOL_LIST : string := "/pools/info/list".
Definition POOL_SEARCH_BY_ID : string := "/pools/info/ids".
Definition POOL_SEARCH_MINT : string := "/pools/info/mint".
Definition POOL_KEY_BY_ID : string := "/pools/key/ids".
End API_URLS.

(** [API_URL_CONFIG = Partial<typeof API_URLS>]: [None] is an absent key. *)
Module UrlConfig.
Record t := {
  MINT_INFO_ID : option string;
  POOL_LIST : option string;
  POOL_SEARCH_BY_ID : option string;
  POOL_SEARCH_MINT : option string;
  POOL_KEY_BY_ID : option string;
}.
(** [{}] *)
Definition empty : t :=
  {| MINT_INFO_ID := None; POOL_LIST := None; POOL_SEARCH_BY_ID := None;
     POOL_SEARCH_MINT := None; POOL_KEY_BY_ID := None |}.
End UrlConfig.

(** [x || d] for a string that may be [undefined]: [""] and [undefined]
    are falsy. *)
Definition str_or (x : option string) (d : string) : string :=
  match x with
  | Some v => if str_truthy v then v else d
  | None => d
  end.

(** [ApiConfig] and [ApiPoolKeys] of [src/api/type.ts]. *)
Module ApiConfig.
Record t := {
  id : string;
  index : Z;
  protocolFeeRate : Z;
  tradeFeeRate : Z;
  fundFeeRate : Z;
  createPoolFee : string;
}.
End ApiConfig.

Module ApiPoolKeys.
Record t := {
  programId : string;
  id : string;
  mintA : ApiV3Token;
  mintB : ApiV3Token;
  lookupTableAccount : option string;
  openTime : string;
  vault : string * string;
  authority : string;
  mintLp : ApiV3Token;
  config : ApiConfig.t;
}.
End ApiPoolKeys.

(** [PoolFetchType] of [src/api/type.ts], and its text in a template
    string. *)
Inductive PoolFetchType := All | Primary | Hyper.

Definition PoolFetchType_text (t : PoolFetchType) : string :=
  match t with
  | All => "all"
  | Primary => "primary"
  | Hyper => "hyper"
  end.

(** The state the pool queries work on: the module-level [poolKeysCache]
    and, for the outside world, the paths requested so far, oldest first. *)
Record ApiSt := {
  poolKeysCache : JsMap ApiPoolKeys.t;
  requests : list string;
}.

(** [Array.prototype.join(",")] *)
Definition join_comma (l : list string) : string := String.concat "," l.

(** [Map.prototype.has] *)
Definition map_has {V} (k : string) (m : JsMap V) : bool :=
  match map_get k m with Some _ => true | None => false end.

Section PoolQueries.
(** [this.api.get(url)] followed by [.data]: the server's answer to a path,
    which may depend on what was requested before. [Pools] is the type of
    [ApiPaginatedPools] answers, which the code hands on unread. *)
Context {Pools : Type}.
Context (get_poolKeys :
           string -> list string -> Outcome (list (option ApiPoolKeys.t))).
Context (get_pools : string -> list string -> Outcome Pools).
(** [solToWSol(mint).toBase58()] of [../common], which is not among the
    sources; it throws on text that is no public key. *)
Context (solToWSol : string -> Outcome string).
Context (urlConfigs : UrlConfig.t).

(** The callback of [data.forEach]: [poolKeysCache.set(poolKey.id, poolKey)] *)
Definition cache_poolKey (cache : JsMap ApiPoolKeys.t) (poolKey : ApiPoolKeys.t)
    : JsMap ApiPoolKeys.t :=
  map_set (ApiPoolKeys.id poolKey) poolKey cache.

(** [fetchPoolKeysById({ idList })]. The [filter] callback pushes the cached
    keys to [cacheList] and keeps the other ids for [readyList]. *)
Definition fetchPoolKeysById (idList : list string) (st : ApiSt)
    : Outcome (list ApiPoolKeys.t) * ApiSt :=
  let cacheList := omap (fun poolId => map_get poolId (poolKeysCache st)) idList in
  let readyList :=
    List.filter (fun poolId => negb (map_has poolId (poolKeysCache st))) idList in
  match readyList with
  | [] => (Ok (cacheList ++ [])%list, st)
  | _ :: _ =>
      let url :=
        str_or (UrlConfig.POOL_KEY_BY_ID urlConfigs) API_URLS.POOL_KEY_BY_ID
        ++ "?ids=" ++ join_comma readyList in
      match get_poolKeys url (requests st) with
      | Throw e =>
          (Throw e, {| poolKeysCache := poolKeysCache st;
                       requests := requests st ++ [url] |})
      | Ok res =>
          let data := omap (fun poolKey => poolKey) res in
          (Ok (cacheList ++ data)%list,
           {| poolKeysCache := fold_left cache_poolKey data (poolKeysCache st);
              requests := requests st ++ [url] |})
      end
  end.

(** The options of [fetchPoolByMints]; [None] is an omitted option. The
    mints are given as text ([PublicKey] arguments by their base-58 text). *)
Record PoolByMintsProps := {
  mint1 : string;
  mint2 : option string;
  pool_type : option PoolFetchType;
  sort : option string;
  order : option string;
  page : option Z;
}.

(** The two mints as [fetchPoolByMints] puts them in the query:
    [mint1] goes through [solToWSol] when it is not empty, [mint2] when it
    is neither absent, empty nor the text ["undefined"], and is [""]
    otherwise; the two are swapped when [mint2] is not empty and
    [mint1 > mint2]. *)
Definition mint_pair (props : PoolByMintsProps) : Outcome (string * string) :=
  match (if str_truthy (mint1 props) then solToWSol (mint1 props)
         else Ok (mint1 props)) with
  | Throw e => Throw e
  | Ok m1 =>
      match (match mint2 props with
             | Some propMint2 =>
                 if (str_truthy propMint2
                     && negb (String.eqb propMint2 "undefined"))%bool
                 then solToWSol propMint2 else Ok ""
             | None => Ok ""
             end) with
      | Throw e => Throw e
      | Ok m2 =>
          Ok (if (str_truthy m2 && String.ltb m2 m1)%bool
              then (m2, m1) else (m1, m2))
      end
  end.

(** [fetchPoolByMints(props)] *)
Definition fetchPoolByMints (props : PoolByMintsProps) (st : ApiSt)
    : Outcome Pools * ApiSt :=
  match mint_pair props with
  | Throw e => (Throw e, st)
  | Ok (baseMint, quoteMint) =>
      let url :=
        str_or (UrlConfig.POOL_SEARCH_MINT urlConfigs) API_URLS.POOL_SEARCH_MINT
        ++ "?mint1=" ++ baseMint ++ "&mint2=" ++ quoteMint
        ++ "&poolType=" ++ PoolFetchType_text (default All (pool_type props))
        ++ "&poolSortField=" ++ default "default" (sort props)
        ++ "&sortType=" ++ default "desc" (order props)
        ++ "&pageSize=100&page=" ++ pretty (default 1 (page props)) in
      (get_pools url (requests st),
       {| poolKeysCache := poolKeysCache st;
          requests := requests st ++ [url] |})
  end.

End PoolQueries.

(* ===================================================================== *)
(** ** More vocabulary *)
(* ===================================================================== *)

(** The table and the provenance sets agree: an address has a record
    exactly when some set has it. *)
Definition consistent (tm : TokenModule) : Prop :=
  forall k,
    is_Some (map_get k (_tokenMap tm)) <->
    k ∈ official (_mintGroup tm) ∪ jup (_mintGroup tm) ∪ extra (_mintGroup tm).

(** Every record of the table is filed under its own address. *)
Definition keyed_by_address (m : JsMap TokenInfo) : Prop :=
  Forall (fun kv => address (snd kv) = fst kv) m.

(** The table of [load] has one entry per address, filed under it. *)
Definition tidy (m : JsMap TokenInfo) : Prop :=
  NoDup m.*1 /\ keyed_by_address m.

(** Every pool key of the cache is filed under its own id. *)
Definition keyed_by_id (cache : JsMap ApiPoolKeys.t) : Prop :=
  Forall (fun kv => ApiPoolKeys.id (snd kv) = fst kv) cache.

(** Default options, with the token list loaded on construction. *)
Definition cfg_load_tokens : ClientLoadParams :=
  {| apiRequestInterval := None; apiRequestTimeout := None;
     apiCacheTime := None; disableLoadToken := false |}.

(** [env_up] with a ledger that takes 45 seconds to tell the epoch. *)
Definition env_slow : Env :=
  {| api_getJupTokenList := api_getJupTokenList env_up;
     api_getTokenInfo := api_getTokenInfo env_up;
     connection_getAccountInfo := connection_getAccountInfo env_up;
     connection_getEpochInfo :=
       fun w => (fst (connection_getEpochInfo env_up w), 45000%N);
     PublicKey_new := PublicKey_new env_up;
     MintLayout_decode := MintLayout_decode env_up;
     SOL_INFO := sample_SOL_INFO;
     checkDisabled := None |}.

(** No pool key cached, nothing requested yet. *)
Definition api_fresh : ApiSt := {| poolKeysCache := []; requests := [] |}.

(** A pool key to run examples with. *)
Definition sample_poolKey (poolId : string) : ApiPoolKeys.t :=
  {| ApiPoolKeys.programId := "GAMMA7meSFWaBXF25oSUgmGRwaW6sCMFLmBNiMSdbHVT";
     ApiPoolKeys.id := poolId;
     ApiPoolKeys.mintA := sample_token USDC "USDC";
     ApiPoolKeys.mintB := sample_token BONK "Bonk";
     ApiPoolKeys.lookupTableAccount := None;
     ApiPoolKeys.openTime := "0";
     ApiPoolKeys.vault := ("vaultA", "vaultB");
     ApiPoolKeys.authority := "authority";
     ApiPoolKeys.mintLp := sample_token JUP "LP";
     ApiPoolKeys.config :=
       {| ApiConfig.id := "config"; ApiConfig.index := 0;
          ApiConfig.protocolFeeRate := 120000;
          ApiConfig.tradeFeeRate := 2500;
          ApiConfig.fundFeeRate := 40000;
          ApiConfig.createPoolFee := "150000000" |} |}.

(** The ids of a path [...?ids=a,b,c]: what follows the first [=], cut at
    the commas. *)
Fixpoint split_commas (acc : string) (s : string) : list string :=
  match s with
  | EmptyString => [acc]
  | String c s' =>
      if Ascii.eqb c ","%char then acc :: split_commas "" s'
      else split_commas (acc ++ String c "") s'
  end.

Fixpoint after_equals (s : string) : string :=
  match s with
  | EmptyString => ""
  | String c s' => if Ascii.eqb c "="%char then s' else after_equals s'
  end.

(** A server that knows every pool id: it answers a path with one key per
    id asked. *)
Definition server_all (url : string) (_ : list string)
    : Outcome (list (option ApiPoolKeys.t)) :=
  Ok ((fun poolId => Some (sample_poolKey poolId))
      <$> split_commas "" (after_equals url)).

(** A server that is down. *)
Definition server_down {A} (_ : string) (_ : list string) : Outcome A :=
  Throw (Rejected "Network Error").

(** A server that echoes the path in an error, to make the path visible. *)
Definition server_echo (url : string) (_ : list string) : Outcome unit :=
  Throw (Rejected url).

(** [call] fails, and touches nothing. *)
Definition always_rejected : M (option Z) :=
  fun st => (Throw (Rejected "timeout"), st).

(** [call] resolves to [undefined], and touches nothing. *)
Definition always_undefined : M (option Z) :=
  fun st => (Ok None, st).

(* ===================================================================== *)
(** * Properties *)
(* ===================================================================== *)

(** Unfolds the plumbing of [M], leaving the state transformer. *)
Ltac run_M :=
  unfold mbind, M_bind, bind, mret, M_ret, ret, throw, try_catch, lift,
    emit, await, sleep, Date_now, get_client, modify_client in *.

(* --------------------------------------------------------------------- *)
(** ** Maps *)

Lemma map_get_set {V} (k k' : string) (v : V) (m : JsMap V) :
  map_get k' (map_set k v m) = if String.eqb k k' then Some v else map_get k' m.
Proof.
  induction m as [|[k0 v0] m IH]; simpl.
  - reflexivity.
  - destruct (String.eqb_spec k0 k) as [->|Hne]; simpl.
    + destruct (String.eqb k k'); reflexivity.
    + rewrite IH. destruct (String.eqb_spec k0 k') as [->|Hne'].
      * destruct (String.eqb_spec k k') as [->|]; [congruence | reflexivity].
      * reflexivity.
Qed.

Lemma map_get_set_eq {V} (k : string) (v : V) (m : JsMap V) :
  map_get k (map_set k v m) = Some v.
Proof. by rewrite map_get_set, String.eqb_refl. Qed.

Lemma map_get_set_ne {V} (k k' : string) (v : V) (m : JsMap V) :
  k <> k' -> map_get k' (map_set k v m) = map_get k' m.
Proof.
  intros Hne. rewrite map_get_set.
  destruct (String.eqb_spec k k'); congruence.
Qed.

(* --------------------------------------------------------------------- *)
(** ** The cached fetches, run *)

Lemma gtb_false a b : a <= b -> (a >? b) = false.
Proof. intros. rewrite Z.gtb_ltb. apply Z.ltb_ge. lia. Qed.

Lemma gtb_true a b : a > b -> (a >? b) = true.
Proof. intros. rewrite Z.gtb_ltb. apply Z.ltb_lt. lia. Qed.

Lemma jup_fetches_snoc w ev c :
  jup_fetches {| clock := c; history := history w ++ [ev] |} =
  (jup_fetches w + (if is_jup_fetch ev then 1 else 0))%nat.
Proof.
  unfold jup_fetches; simpl. rewrite List.filter_app, length_app. simpl.
  destruct (is_jup_fetch ev); reflexivity.
Qed.

Lemma epoch_fetches_snoc w ev c :
  epoch_fetches {| clock := c; history := history w ++ [ev] |} =
  (epoch_fetches w + (if is_epoch_fetch ev then 1 else 0))%nat.
Proof.
  unfold epoch_fetches; simpl. rewrite List.filter_app, length_app. simpl.
  destruct (is_epoch_fetch ev); reflexivity.
Qed.

(** What the [try]/[catch] block does, by the answer of the API. *)
Lemma refetchJupTokenList_run env st :
  refetchJupTokenList env st =
  let w := world st in
  match api_getJupTokenList env w with
  | (Ok v, dt) =>
      (Ok v,
       {| client := set_jupTokenList
                      (Some {| fetched := clock w + Z.of_N dt; data := v |})
                      (client st);
          world := {| clock := clock w + Z.of_N dt;
                      history := history w ++ [EvGetJupTokenList] |} |})
  | (Throw e, dt) =>
      (Ok [],
       {| client := client st;
          world := {| clock := clock w + Z.of_N dt;
                      history := (history w ++ [EvGetJupTokenList])
                                 ++ [EvConsoleError e] |} |})
  end.
Proof.
  unfold refetchJupTokenList. run_M. simpl.
  destruct (api_getJupTokenList env (world st)) as [[v|e] dt]; reflexivity.
Qed.

Lemma fetchJupTokenList_run env fu st :
  fetchJupTokenList env fu st =
  match apiData_jupTokenList (client st) with
  | Some p =>
      if (negb (clock (world st) - fetched p >? _apiCacheTime (client st))
          && negb (bool_truthy fu))%bool
      then (Ok (data p), st)
      else refetchJupTokenList env st
  | None => refetchJupTokenList env st
  end.
Proof.
  unfold fetchJupTokenList, isCacheInvalidate. run_M. simpl.
  destruct (apiData_jupTokenList (client st)) as [p|]; [|reflexivity].
  destruct (_ && _)%bool; reflexivity.
Qed.

Lemma refetchEpochInfo_run env st :
  refetchEpochInfo env st =
  let w := world st in
  match connection_getEpochInfo env w with
  | (Ok v, dt) =>
      (Ok v,
       {| client := set_epochInfo
                      (Some {| epoch_fetched := clock w; epoch_value := v |})
                      (client st);
          world := {| clock := clock w + Z.of_N dt;
                      history := history w ++ [EvGetEpochInfo] |} |})
  | (Throw e, dt) =>
      (Throw e,
       {| client := client st;
          world := {| clock := clock w + Z.of_N dt;
                      history := history w ++ [EvGetEpochInfo] |} |})
  end.
Proof.
  unfold refetchEpochInfo. run_M. simpl.
  destruct (connection_getEpochInfo env (world st)) as [[v|e] dt]; reflexivity.
Qed.

Lemma fetchEpochInfo_run env st :
  fetchEpochInfo env st =
  match _epochInfo (client st) with
  | Some cached =>
      if clock (world st) - epoch_fetched cached <=? 1000 * 30
      then (Ok (epoch_value cached), st)
      else refetchEpochInfo env st
  | None => refetchEpochInfo env st
  end.
Proof.
  unfold fetchEpochInfo. run_M. simpl.
  destruct (_epochInfo (client st)) as [p|]; [|reflexivity].
  destruct (_ <=? _); reflexivity.
Qed.

(** The token-list fetch never throws and leaves the token module alone. *)
Lemma fetchJupTokenList_token env fu st r st' :
  fetchJupTokenList env fu st = (r, st') ->
  token (client st') = token (client st) /\ exists l, r = Ok l.
Proof.
  rewrite fetchJupTokenList_run, refetchJupTokenList_run. simpl.
  destruct (apiData_jupTokenList (client st)) as [p|].
  - destruct (_ && _)%bool.
    + intros [= <- <-]. eauto.
    + destruct (api_getJupTokenList env (world st)) as [[v|e] dt];
        intros [= <- <-]; simpl; eauto.
  - destruct (api_getJupTokenList env (world st)) as [[v|e] dt];
      intros [= <- <-]; simpl; eauto.
Qed.

(* --------------------------------------------------------------------- *)
(** ** [load]: the merge *)

Lemma fold_jup_get addr l : forall tm,
  map_get addr (_tokenMap (fold_left load_jup_step l tm)) =
  match last_with addr l with
  | Some t => Some (jup_entry t)
  | None => map_get addr (_tokenMap tm)
  end.
Proof.
  induction l as [|t l IH]; intros tm; simpl; [reflexivity|].
  rewrite IH. destruct (last_with addr l); [reflexivity|].
  simpl. rewrite map_get_set.
  destruct (String.eqb (address t) addr); reflexivity.
Qed.

Lemma fold_extra_get addr l : forall tm,
  map_get addr (_tokenMap (fold_left load_extra_step l tm)) =
  match last_with addr l with
  | Some t => Some (extra_entry t)
  | None => map_get addr (_tokenMap tm)
  end.
Proof.
  induction l as [|t l IH]; intros tm; simpl; [reflexivity|].
  rewrite IH. destruct (last_with addr l); [reflexivity|].
  simpl. rewrite map_get_set.
  destruct (String.eqb (address t) addr); reflexivity.
Qed.

Lemma fold_jup_groups l : forall tm,
  let tm' := fold_left load_jup_step l tm in
  official (_mintGroup tm') = official (_mintGroup tm) /\
  jup (_mintGroup tm') = list_to_set (address <$> l) ∪ jup (_mintGroup tm) /\
  extra (_mintGroup tm') = extra (_mintGroup tm) /\
  _extraTokenList tm' = _extraTokenList tm.
Proof.
  induction l as [|t l IH]; intros tm; simpl.
  - repeat split; set_solver.
  - destruct (IH (load_jup_step tm t)) as (H1 & H2 & H3 & H4).
    rewrite H1, H2, H3, H4. simpl. repeat split. set_solver.
Qed.

Lemma fold_extra_groups l : forall tm,
  let tm' := fold_left load_extra_step l tm in
  official (_mintGroup tm') = official (_mintGroup tm) /\
  jup (_mintGroup tm') = jup (_mintGroup tm) /\
  extra (_mintGroup tm') = list_to_set (address <$> l) ∪ extra (_mintGroup tm) /\
  _extraTokenList tm' = _extraTokenList tm.
Proof.
  induction l as [|t l IH]; intros tm; simpl.
  - repeat split; set_solver.
  - destruct (IH (load_extra_step tm t)) as (H1 & H2 & H3 & H4).
    rewrite H1, H2, H3, H4. simpl. repeat split. set_solver.
Qed.

Lemma load_rebuild_spec env jupList tm :
  let tm' := load_rebuild env jupList tm in
  (forall addr,
     map_get addr (_tokenMap tm') = merged env jupList (_extraTokenList tm) addr) /\
  official (_mintGroup tm') = {[ address (SOL_INFO env) ]} /\
  jup (_mintGroup tm') = list_to_set (address <$> jupList) /\
  extra (_mintGroup tm') = list_to_set (address <$> _extraTokenList tm) /\
  _tokenList tm' = map_values (_tokenMap tm') /\
  _extraTokenList tm' = _extraTokenList tm.
Proof.
  unfold load_rebuild. simpl.
  set (tm0 := official_add _ (tokenMap_set _ _ (load_reset tm))).
  destruct (fold_jup_groups jupList tm0) as (Ho & Hj & He & Hx).
  set (tm1 := fold_left load_jup_step jupList tm0) in *.
  destruct (fold_extra_groups (_extraTokenList tm1) tm1)
    as (Ho' & Hj' & He' & Hx').
  split; [|repeat split].
  - intros addr. rewrite fold_extra_get. unfold merged.
    rewrite Hx. simpl.
    destruct (last_with addr (_extraTokenList tm)); [reflexivity|].
    unfold tm1. rewrite fold_jup_get.
    destruct (last_with addr jupList); reflexivity.
  - rewrite Ho', Ho. simpl. set_solver.
  - rewrite Hj', Hj. simpl. set_solver.
  - rewrite He', He, Hx. simpl. set_solver.
  - rewrite Hx', Hx. reflexivity.
Qed.

(** What [load] does when the module is enabled. *)
Lemma load_run env params st jupList st1 :
  checkDisabled env = None ->
  fetchJupTokenList env (Some (load_forceUpdate params)) st = (Ok jupList, st1) ->
  load env params st =
  (Ok tt, {| client := set_token (load_rebuild env jupList) (client st1);
             world := world st1 |}).
Proof.
  intros Hen Hfetch. unfold load. run_M. rewrite Hen. simpl.
  rewrite Hfetch. reflexivity.
Qed.

(** What a [load] that returned has done. *)
Lemma load_ok_inv env params st st' :
  load env params st = (Ok tt, st') ->
  exists jupList st1,
    checkDisabled env = None /\
    fetchJupTokenList env (Some (load_forceUpdate params)) st = (Ok jupList, st1) /\
    st' = {| client := set_token (load_rebuild env jupList) (client st1);
             world := world st1 |}.
Proof.
  destruct (checkDisabled env) as [e|] eqn:Hen.
  - unfold load. run_M. rewrite Hen. discriminate.
  - destruct (fetchJupTokenList env (Some (load_forceUpdate params)) st)
      as [r st1] eqn:Hfetch.
    destruct (fetchJupTokenList_token _ _ _ _ _ Hfetch) as [_ [l ->]].
    rewrite (load_run _ _ _ _ _ Hen Hfetch). intros [= <-]. eauto.
Qed.

(** C1. With the module enabled, [load] returns, and once it has returned
    the table is the last-write-wins union of the three sources in the
    order official, external, curated: at every address it holds the record
    written for the last source that has the address ([merged]), where
    [jupList] is the external list the cached fetch handed to [load]. The
    provenance sets hold exactly the addresses of their source, overwritten
    or not: [official] the native address, [jup] those of the external
    list, [extra] those of the curated list. The list view is the table's
    values. *)
Theorem C1_load_last_write_wins (env : Env) (params : option LoadParams)
    (st : St) :
  checkDisabled env = None ->
  exists jupList st1 st',
    fetchJupTokenList env (Some (load_forceUpdate params)) st = (Ok jupList, st1) /\
    load env params st = (Ok tt, st') /\
    world st' = world st1 /\
    (forall addr,
       map_get addr (_tokenMap (token (client st'))) =
       merged env jupList (_extraTokenList (token (client st))) addr) /\
    official (_mintGroup (token (client st'))) = {[ address (SOL_INFO env) ]} /\
    jup (_mintGroup (token (client st'))) = list_to_set (address <$> jupList) /\
    extra (_mintGroup (token (client st'))) =
      list_to_set (address <$> _extraTokenList (token (client st))) /\
    _tokenList (token (client st')) = map_values (_tokenMap (token (client st'))).
Proof.
  intros Hen.
  destruct (fetchJupTokenList env (Some (load_forceUpdate params)) st)
    as [r st1] eqn:Hfetch.
  destruct (fetchJupTokenList_token _ _ _ _ _ Hfetch) as [Htok [jupList ->]].
  exists jupList, st1. eexists. split; [reflexivity|].
  rewrite (load_run _ _ _ _ _ Hen Hfetch).
  split; [reflexivity|]. simpl.
  destruct (load_rebuild_spec env jupList (token (client st1)))
    as (Hm & Ho & Hj & He & Hl & _).
  rewrite Htok in *. repeat split; assumption.
Qed.

(** C1, run: a three-way collision. The native address is also in the
    external list and in the curated list; the curated record wins, and
    all three provenance sets keep the address. *)
Lemma C1_load_last_write_wins_witness :
  let sol := address sample_SOL_INFO in
  let st := st_curated [sample_token sol "cSOL"] in
  let st' := snd (load env_collision None st) in
  fst (load env_collision None st) = Ok tt /\
  map_get sol (_tokenMap (token (client st')))
    = Some (extra_entry (sample_token sol "cSOL")) /\
  map_get USDC (_tokenMap (token (client st')))
    = Some (jup_entry (sample_token USDC "USDC")) /\
  sol ∈ official (_mintGroup (token (client st'))) /\
  sol ∈ jup (_mintGroup (token (client st'))) /\
  sol ∈ extra (_mintGroup (token (client st'))).
Proof.
  intros sol st st'.
  destruct (C1_load_last_write_wins env_collision None st eq_refl)
    as (jupList & st1 & st2 & Hfetch & Hload & _ & Hmap & Ho & Hj & He & _).
  injection Hfetch as <- <-.
  unfold st'. rewrite Hload. simpl.
  rewrite !Hmap, Ho, Hj, He.
  repeat split; try reflexivity; set_solver.
Defined.

(* --------------------------------------------------------------------- *)
(** ** [load]: what is kept of a source record *)

(** The external path keeps a [programId] that is present. *)
Lemma jup_entry_programId token p :
  programId token = Some p -> programId (jup_entry token) = Some p.
Proof. intros Hp. unfold jup_entry. simpl. by rewrite Hp. Qed.

(** The curated path replaces every non-empty [programId] by the
    Token-2022 program. *)
Lemma extra_entry_programId token p :
  programId token = Some p -> p <> "" ->
  programId (extra_entry token) = Some TOKEN_2022_PROGRAM_ID.
Proof.
  intros Hp Hne. unfold extra_entry. simpl. rewrite Hp.
  destruct p; [congruence | reflexivity].
Qed.

(** Both paths keep every other field of the source record. *)
Lemma entries_keep_fields token :
  let j := jup_entry token in
  let x := extra_entry token in
  (chainId j, address j, logoURI j, symbol j, name j, decimals j, tags j,
   extensions j)
  = (chainId token, address token, logoURI token, symbol token, name token,
     decimals token, tags token, extensions token) /\
  (chainId x, address x, logoURI x, symbol x, name x, decimals x, tags x,
   extensions x)
  = (chainId token, address token, logoURI token, symbol token, name token,
     decimals token, tags token, extensions token).
Proof. split; reflexivity. Qed.

(** [load] leaves the curated list as it is. *)
Lemma load_extraTokenList env params st r st' :
  load env params st = (r, st') ->
  _extraTokenList (token (client st')) = _extraTokenList (token (client st)).
Proof.
  destruct (checkDisabled env) as [e|] eqn:Hen.
  - unfold load. run_M. rewrite Hen. by intros [= <- <-].
  - destruct (fetchJupTokenList env (Some (load_forceUpdate params)) st)
      as [rf st1] eqn:Hfetch.
    destruct (fetchJupTokenList_token _ _ _ _ _ Hfetch) as [Htok [l ->]].
    rewrite (load_run _ _ _ _ _ Hen Hfetch). intros [= <- <-].
    destruct (load_rebuild_spec env l (token (client st1)))
      as (_ & _ & _ & _ & _ & Hx).
    cbn [client token set_token]. by rewrite Hx, Htok.
Qed.

(** C7, refuted as stated: the token list delivers [USDC] without a
    [programId]. After [load] the table's record for [USDC] has one, the
    token program, so it is not the source's record apart from [type] and
    [priority]. *)
Lemma C7_counterexample :
  ~ table_matches_sources env_bare_list None (st_fresh cfg_default 1000).
Proof.
  intros Hclaim.
  destruct (Hclaim _ _ _ eq_refl eq_refl USDC
              (sample_token_bare USDC "USDC" []) eq_refl)
    as (t & Hget & _ & _ & Hp & _).
  vm_compute in Hget. injection Hget as <-. discriminate Hp.
Qed.

(** C7, amended. After a [load] that returned, for every address in the
    external or in the curated list, the table holds a record made from the
    entry of the last list that has the address, the curated list being
    merged after the external one. That record has the entry's chain id,
    address, logo, symbol, name, decimals, tags and extensions, and
    priority 1. Made from an external entry it has type "jupiter" and the
    entry's [programId], or, when the entry has none, the program its tags
    stand for: Token-2022 for the tag [token-2022], the token program
    otherwise. Made from a curated entry it has type "extra"; nothing is
    said of its [programId]. *)
Theorem C7_load_keeps_source_fields (env : Env) (params : option LoadParams)
    (st st' : St) :
  load env params st = (Ok tt, st') ->
  exists jupList st1,
    fetchJupTokenList env (Some (load_forceUpdate params)) st
      = (Ok jupList, st1) /\
    forall addr src,
      last_source jupList (_extraTokenList (token (client st))) addr
        = Some src ->
      exists t,
        map_get addr (_tokenMap (token (client st'))) = Some t /\
        same_fields t src /\
        priority t = Some 1 /\
        (last_with addr (_extraTokenList (token (client st))) = None ->
         type t = Some "jupiter" /\
         programId t
         = Some (default (programId_from_tags src) (programId src))) /\
        (is_Some (last_with addr (_extraTokenList (token (client st)))) ->
         type t = Some "extra").
Proof.
  intros Hload.
  destruct (load_ok_inv _ _ _ _ Hload) as (jupList & st1 & _ & Hfetch & ->).
  exists jupList, st1. split; [exact Hfetch|].
  destruct (fetchJupTokenList_token _ _ _ _ _ Hfetch) as [Htok _].
  destruct (load_rebuild_spec env jupList (token (client st1)))
    as (Hm & _).
  intros addr src Hsrc. simpl. rewrite Hm, Htok.
  unfold merged, last_source in *.
  destruct (last_with addr (_extraTokenList (token (client st))))
    as [x|] eqn:Hx.
  - injection Hsrc as ->. exists (extra_entry src).
    split; [reflexivity|]. split; [by repeat split|].
    split; [reflexivity|]. split; [discriminate | reflexivity].
  - rewrite Hsrc. exists (jup_entry src).
    split; [reflexivity|]. split; [by repeat split|].
    split; [reflexivity|]. split.
    + intros _. split; [reflexivity|].
      unfold jup_entry, programId_from_tags. simpl.
      by destruct (programId src).
    + intros [y Hy]. discriminate Hy.
Qed.

(** C7, run: a token list whose entries name no program. [BONK], tagged
    [token-2022], gets the Token-2022 program, and [USDC] the token
    program. *)
Lemma C7_load_keeps_source_fields_witness :
  let st' := snd (load env_bare_list None (st_fresh cfg_default 1000)) in
  (exists t,
     map_get BONK (_tokenMap (token (client st'))) = Some t /\
     symbol t = "Bonk" /\ decimals t = 6 /\ tags t = ["token-2022"] /\
     type t = Some "jupiter" /\ priority t = Some 1 /\
     programId t = Some TOKEN_2022_PROGRAM_ID) /\
  (exists t,
     map_get USDC (_tokenMap (token (client st'))) = Some t /\
     type t = Some "jupiter" /\
     programId t = Some TOKEN_PROGRAM_ID).
Proof.
  intros st'.
  destruct (C7_load_keeps_source_fields env_bare_list None
              (st_fresh cfg_default 1000) st' eq_refl)
    as (jupList & st1 & Hfetch & Hall).
  injection Hfetch as <- <-.
  split.
  - destruct (Hall BONK (sample_token_bare BONK "Bonk" ["token-2022"])
                eq_refl)
      as (t & Hget & (_ & _ & _ & Hs & _ & Hd & Ht & _) & Hp & Hj & _).
    destruct (Hj eq_refl) as [Hty Hpr].
    exists t. repeat split; assumption.
  - destruct (Hall USDC (sample_token_bare USDC "USDC" []) eq_refl)
      as (t & Hget & _ & _ & Hj & _).
    destruct (Hj eq_refl) as [Hty Hpr].
    exists t. repeat split; assumption.
Defined.

(* --------------------------------------------------------------------- *)
(** ** [getTokenInfo] *)

(** Case analysis over the ledger tier of [getTokenInfo]. *)
Ltac ledger_cases env mint :=
  destruct (PublicKey_new env mint) as [pubkey|ekey] eqn:Hkey; simpl;
  [ match goal with
    | |- context [connection_getAccountInfo env pubkey ?w] =>
        destruct (connection_getAccountInfo env pubkey w)
          as [[[onlineInfo|]|eacc] dt2] eqn:Hacc; simpl;
        [ destruct (MintLayout_decode env (acc_data onlineInfo))
            as [raw|edec] eqn:Hdec; simpl | | ]
    end
  | ].

(** Case analysis over one run of [getTokenInfo]. *)
Ltac getTokenInfo_cases env mint st :=
  unfold getTokenInfo; run_M; simpl;
  destruct (str_truthy mint) eqn:Hmint; simpl;
  [ destruct (map_get mint (_tokenMap (token (client st))))
      as [info|] eqn:Hget;
    [ | destruct (String.eqb (toLocaleUpperCase mint) "SOL") eqn:Halias;
        [ | destruct (api_getTokenInfo env [mint] (world st))
              as [[res|eapi] dt1] eqn:Hapi; simpl;
            [ destruct (head res) as [[apiTokenInfo|]|] eqn:Hhead; simpl;
              [ | ledger_cases env mint | ledger_cases env mint ]
            | ] ] ]
  | ].

(** Whatever its outcome, a call touches nothing but the entry of the
    table at [mint] and the curated set, to which it can add [mint]. *)
Lemma getTokenInfo_frame env mint st r st' :
  getTokenInfo env mint st = (r, st') ->
  let tm := token (client st) in
  let tm' := token (client st') in
  _tokenList tm' = _tokenList tm /\
  official (_mintGroup tm') = official (_mintGroup tm) /\
  jup (_mintGroup tm') = jup (_mintGroup tm) /\
  _extraTokenList tm' = _extraTokenList tm /\
  apiData_jupTokenList (client st') = apiData_jupTokenList (client st) /\
  _apiCacheTime (client st') = _apiCacheTime (client st) /\
  _epochInfo (client st') = _epochInfo (client st) /\
  extra (_mintGroup tm') ⊆ {[ mint ]} ∪ extra (_mintGroup tm) /\
  (forall k, k <> mint -> map_get k (_tokenMap tm') = map_get k (_tokenMap tm)).
Proof.
  getTokenInfo_cases env mint st; intros [= <- <-]; simpl;
    repeat split; try reflexivity; try set_solver.
  all: intros k Hk; by apply map_get_set_ne.
Qed.

Lemma resolves_frame env st st' :
  resolves env st st' ->
  let tm := token (client st) in
  let tm' := token (client st') in
  _tokenList tm' = _tokenList tm /\
  official (_mintGroup tm') = official (_mintGroup tm) /\
  jup (_mintGroup tm') = jup (_mintGroup tm).
Proof.
  induction 1 as [st|st mint r st1 st2 Hrun _ (IH1 & IH2 & IH3)]; simpl.
  - repeat split.
  - destruct (getTokenInfo_frame _ _ _ _ _ Hrun) as (H1 & H2 & H3 & _).
    rewrite IH1, IH2, IH3. repeat split; assumption.
Qed.

(** Nothing writes the curated list: [load], [getTokenInfo] and the two
    cached fetches leave it as it is, and a client built by
    [GfxCpmmClient.load] has an empty one. *)
Lemma curated_list_never_written env st :
  (forall params r st',
     load env params st = (r, st') ->
     _extraTokenList (token (client st'))
     = _extraTokenList (token (client st))) /\
  (forall mint r st',
     getTokenInfo env mint st = (r, st') ->
     _extraTokenList (token (client st'))
     = _extraTokenList (token (client st))) /\
  (forall fu r st',
     fetchJupTokenList env fu st = (r, st') ->
     _extraTokenList (token (client st'))
     = _extraTokenList (token (client st))) /\
  (forall r st',
     fetchEpochInfo env st = (r, st') ->
     _extraTokenList (token (client st'))
     = _extraTokenList (token (client st))) /\
  (forall config r st',
     GfxCpmmClient_load env config st = (r, st') ->
     _extraTokenList (token (client st')) = []).
Proof.
  repeat split.
  - intros params r st'. apply load_extraTokenList.
  - intros mint r st' Hrun.
    by destruct (getTokenInfo_frame _ _ _ _ _ Hrun) as (_ & _ & _ & Hx & _).
  - intros fu r st' Hrun.
    destruct (fetchJupTokenList_token _ _ _ _ _ Hrun) as [Htok _].
    by rewrite Htok.
  - intros r st'. rewrite fetchEpochInfo_run, refetchEpochInfo_run. simpl.
    destruct (connection_getEpochInfo env (world st)) as [[v|e] dt];
      (destruct (_epochInfo (client st)) as [c|];
       [destruct (_ <=? _)|]);
      by intros [= <- <-].
  - intros config r st'. unfold GfxCpmmClient_load. run_M.
    destruct (disableLoadToken config); simpl.
    + by intros [= <- <-].
    + intros Hrun. by rewrite (load_extraTokenList _ _ _ _ _ Hrun).
Qed.

(** C10. A call of [getTokenInfo] that succeeds on an address the table
    does not have leaves the list view, the official and the external set
    untouched, as well as the curated source list and the caches of the
    client: it writes to the token map and the curated set only. Hence the
    [tokenList] accessor returns what the last [load] made it, across any
    further calls of [getTokenInfo]. *)
Theorem C10_resolve_frame (env : Env) (mint : string) (st st' : St)
    (r : ApiV3Token) :
  map_get mint (_tokenMap (token (client st))) = None ->
  getTokenInfo env mint st = (Ok r, st') ->
  let tm := token (client st) in
  let tm' := token (client st') in
  (_tokenList tm' = _tokenList tm /\
   official (_mintGroup tm') = official (_mintGroup tm) /\
   jup (_mintGroup tm') = jup (_mintGroup tm) /\
   _extraTokenList tm' = _extraTokenList tm /\
   apiData_jupTokenList (client st') = apiData_jupTokenList (client st) /\
   _apiCacheTime (client st') = _apiCacheTime (client st) /\
   _epochInfo (client st') = _epochInfo (client st)) /\
  (forall st'', resolves env st' st'' ->
     tokenList (token (client st'')) = tokenList tm).
Proof.
  intros _ Hrun tm tm'.
  destruct (getTokenInfo_frame _ _ _ _ _ Hrun)
    as (H1 & H2 & H3 & H4 & H5 & H6 & H7 & _).
  split; [repeat split; assumption|].
  intros st'' Hres. destruct (resolves_frame _ _ _ Hres) as (H & _).
  unfold tokenList, tm. simpl in H. congruence.
Qed.

(** C10, run: [JUP] is resolved through the metadata API on a loaded
    client; the list view still has the records of the load only. *)
Lemma C10_resolve_frame_witness :
  let st' := snd (getTokenInfo env_up JUP st_loaded) in
  fst (getTokenInfo env_up JUP st_loaded) = Ok (sample_token JUP "JUP") /\
  map_get JUP (_tokenMap (token (client st_loaded))) = None /\
  map_get JUP (_tokenMap (token (client st')))
    = Some (with_priority 2 (sample_token JUP "JUP")) /\
  _tokenList (token (client st')) = _tokenList (token (client st_loaded)) /\
  _tokenList (token (client st_loaded))
    = [sample_SOL_INFO; jup_entry (sample_token USDC "USDC")].
Proof.
  intros st'.
  split; [reflexivity|]. split; [reflexivity|]. split; [reflexivity|].
  split; [|reflexivity].
  exact (proj1 (proj1 (C10_resolve_frame env_up JUP st_loaded st'
                         (sample_token JUP "JUP") eq_refl eq_refl))).
Defined.

(** C6, refuted as stated: the ledger has an account at [BONK] that is no
    mint. The account exists, and [getTokenInfo] returns no record: the
    mint decoder rejects the data and the call fails with that. *)
Lemma C6_counterexample :
  ~ existing_account_resolves env_plain_account BONK
      (st_fresh cfg_default 1000).
Proof.
  intros Hclaim.
  destruct (Hclaim [] 10%N BONK sample_plain_account 10%N
              eq_refl eq_refl eq_refl eq_refl (or_introl eq_refl)
              eq_refl eq_refl)
    as (info & st' & Hrun & _).
  vm_compute in Hrun. discriminate Hrun.
Qed.

(** C6, amended. Let [mint] be non-empty, absent from the table, not the
    alias of the native asset, let the metadata API answer without a record
    for it, and let [mint] be the text of a public key. If the ledger has
    an account there whose data the mint layout decodes, [getTokenInfo]
    returns a record whose symbol and name are the first 6 characters of
    [mint], with no tags, priority 0, type "unknown", the account's owner
    as [programId] and the decoded [decimals]; the table then holds that
    record at [mint] and the curated set holds [mint]. If the ledger has an
    account there whose data the mint layout rejects, [getTokenInfo] fails
    with the decoder's error and leaves the client as it was. If the ledger
    has no account there, [getTokenInfo] fails with [UnknownMint] and
    leaves the client as it was. *)
Theorem C6_ledger_tier (env : Env) (mint : string) (st : St)
    (res : list (option ApiV3Token)) (dt1 : N) (pubkey : string) :
  str_truthy mint = true ->
  map_get mint (_tokenMap (token (client st))) = None ->
  String.eqb (toLocaleUpperCase mint) "SOL" = false ->
  api_getTokenInfo env [mint] (world st) = (Ok res, dt1) ->
  api_no_record res ->
  PublicKey_new env mint = Ok pubkey ->
  let w1 := after_api mint (world st) dt1 in
  (forall onlineInfo dt2 raw,
     connection_getAccountInfo env pubkey w1 = (Ok (Some onlineInfo), dt2) ->
     MintLayout_decode env (acc_data onlineInfo) = Ok raw ->
     exists info st',
       getTokenInfo env mint st = (Ok info, st') /\
       symbol info = String.substring 0 6 mint /\
       name info = String.substring 0 6 mint /\
       tags info = [] /\
       priority info = Some 0 /\
       type info = Some "unknown" /\
       programId info = Some (owner onlineInfo) /\
       decimals info = mint_decimals raw /\
       address info = mint /\
       map_get mint (_tokenMap (token (client st'))) = Some info /\
       mint ∈ extra (_mintGroup (token (client st')))) /\
  (forall onlineInfo dt2 e,
     connection_getAccountInfo env pubkey w1 = (Ok (Some onlineInfo), dt2) ->
     MintLayout_decode env (acc_data onlineInfo) = Throw e ->
     exists st',
       getTokenInfo env mint st = (Throw e, st') /\
       client st' = client st /\
       history (world st') =
       (history (world st)
        ++ [EvGetTokenInfo [mint]; EvGetAccountInfo pubkey])%list) /\
  (forall dt2,
     connection_getAccountInfo env pubkey w1 = (Ok None, dt2) ->
     exists st',
       getTokenInfo env mint st = (Throw (UnknownMint mint), st') /\
       client st' = client st).
Proof.
  intros Hmint Hget Halias Hapi Hhead Hkey w1. split; [|split].
  - intros onlineInfo dt2 raw Hacc Hdec.
    unfold getTokenInfo. run_M. simpl.
    rewrite Hmint. simpl. rewrite Hget, Halias, Hapi. simpl.
    destruct Hhead as [-> | ->]; simpl; rewrite Hkey; simpl;
      fold (after_api mint (world st) dt1); fold w1;
      rewrite Hacc; simpl; rewrite Hdec; simpl;
      (eexists; eexists; split; [reflexivity|]); simpl;
      repeat split; try reflexivity;
      try (rewrite map_get_set, String.eqb_refl; reflexivity);
      set_solver.
  - intros onlineInfo dt2 e Hacc Hdec.
    unfold getTokenInfo. run_M. simpl.
    rewrite Hmint. simpl. rewrite Hget, Halias, Hapi. simpl.
    destruct Hhead as [-> | ->]; simpl; rewrite Hkey; simpl;
      fold (after_api mint (world st) dt1); fold w1;
      rewrite Hacc; simpl; rewrite Hdec; simpl;
      (eexists; split; [reflexivity|]); simpl;
      rewrite <- app_assoc; split; reflexivity.
  - intros dt2 Hacc.
    unfold getTokenInfo. run_M. simpl.
    rewrite Hmint. simpl. rewrite Hget, Halias, Hapi. simpl.
    destruct Hhead as [-> | ->]; simpl; rewrite Hkey; simpl;
      fold (after_api mint (world st) dt1); fold w1;
      rewrite Hacc; simpl;
      (eexists; split; [reflexivity|]); reflexivity.
Qed.

(** C6, run: [SAMO] is known to the ledger only. *)
Lemma C6_ledger_tier_witness :
  exists info st',
    getTokenInfo env_up SAMO (st_fresh cfg_default 1000) = (Ok info, st') /\
    symbol info = "7xKXtg" /\ name info = "7xKXtg" /\ tags info = [] /\
    priority info = Some 0 /\ type info = Some "unknown" /\
    programId info = Some TOKEN_PROGRAM_ID /\ decimals info = 9.
Proof.
  destruct (proj1 (C6_ledger_tier env_up SAMO (st_fresh cfg_default 1000)
                     [] 10%N SAMO eq_refl eq_refl eq_refl eq_refl
                     (or_introl eq_refl) eq_refl)
              sample_mint_account 10%N {| mint_decimals := 9 |}
              eq_refl eq_refl)
    as (info & st' & Hrun & Hs & Hn & Ht & Hp & Hty & Hpr & Hd & _).
  exists info, st'. rewrite Hs, Hn, Hpr, Hd. repeat split; assumption.
Defined.

(** C2, refuted as stated: with the metadata API down, [getTokenInfo]
    fails with the API's own rejection, which is not [UnknownMint], and the
    ledger was never asked. *)
Lemma C2_counterexample :
  ~ only_UnknownMint_escapes env_down USDC (st_fresh cfg_default 1000).
Proof.
  intros Hclaim.
  destruct (Hclaim (Rejected "Network Error")
              {| client := client (st_fresh cfg_default 1000);
                 world := {| clock := 1010;
                             history := [EvGetTokenInfo [USDC]] |} |}
              eq_refl) as [Habs _].
  discriminate Habs.
Qed.

(** C2, amended. A call of [getTokenInfo] on a non-empty address goes
    through the tiers in the order table, alias of the native asset,
    metadata API, ledger, and stops at the first that has a record: the
    remote calls it makes are none, or the API call, or the API call
    followed by the ledger call ([resolution]). It moves on to the next
    tier only when a tier answers without a record. A rejection by the API,
    by the public-key constructor, by the ledger or by the mint decoder is
    not swallowed: the call fails with it at once. [UnknownMint] is raised
    only after the table and the API had no record and the ledger had no
    account. *)
Theorem C2_tiers_in_order (env : Env) (mint : string) (st st' : St)
    (r : Outcome ApiV3Token) :
  str_truthy mint = true ->
  getTokenInfo env mint st = (r, st') ->
  exists tr,
    history (world st') = (history (world st) ++ tr)%list /\
    resolution env mint st r tr.
Proof.
  intros Hm. getTokenInfo_cases env mint st; try discriminate Hm;
    intros [= <- <-]; simpl; rewrite <- ?app_assoc; simpl;
    (eexists; split; [first [reflexivity | symmetry; apply app_nil_r]|]).
  all: solve [econstructor; unfold api_no_record, after_api; eauto].
Qed.

(** C2, run: an address nobody knows goes through all three tiers. *)
Lemma C2_tiers_in_order_witness :
  exists tr,
    history (world (snd (getTokenInfo env_up BONK (st_fresh cfg_default 1000))))
      = ([] ++ tr)%list /\
    resolution env_up BONK (st_fresh cfg_default 1000)
      (fst (getTokenInfo env_up BONK (st_fresh cfg_default 1000))) tr.
Proof.
  exact (C2_tiers_in_order env_up BONK (st_fresh cfg_default 1000) _ _
           eq_refl eq_refl).
Defined.

(** The run above ends in [UnknownMint] after the API and the ledger were
    asked, in this order. *)
Example getTokenInfo_unknown_everywhere :
  let '(r, st') := getTokenInfo env_up BONK (st_fresh cfg_default 1000) in
  r = Throw (UnknownMint BONK) /\
  history (world st') = [EvGetTokenInfo [BONK]; EvGetAccountInfo BONK].
Proof. split; reflexivity. Qed.

(* --------------------------------------------------------------------- *)
(** ** The cached fetches *)

(** C8, refuted as stated: the cached epoch is 30001 ms old and the
    ledger answers in 10 ms. The new epoch is stored under the time at
    which the ledger was asked, 31001, and not under the time at which the
    answer came in, 31011. *)
Lemma C8_counterexample :
  ~ epoch_stamped_on_success env_up (st_cached 31001).
Proof.
  intros Hclaim.
  specialize (Hclaim _ _ eq_refl eq_refl).
  vm_compute in Hclaim. discriminate Hclaim.
Qed.

(** C8, amended. For the token list, with the client's [_apiCacheTime] as
    TTL, and for the epoch, with 30 seconds: while a cached value exists and
    [now - fetched <= ttl], a call that is not forced returns the cached
    value and leaves client and world as they are, so no fetch is made.
    When a cached value exists and the TTL has elapsed, a call makes
    exactly one fetch; if that fetch succeeds, its result is returned and
    stored: the token list with the time at which the answer came in, the
    epoch with the time at which the call was made, before the ledger was
    asked. *)
Theorem C8_cached_fetch_ttl (env : Env) (st : St) :
  (forall p fu,
     apiData_jupTokenList (client st) = Some p ->
     clock (world st) - fetched p <= _apiCacheTime (client st) ->
     bool_truthy fu = false ->
     fetchJupTokenList env fu st = (Ok (data p), st)) /\
  (forall p fu r st',
     apiData_jupTokenList (client st) = Some p ->
     clock (world st) - fetched p > _apiCacheTime (client st) ->
     fetchJupTokenList env fu st = (r, st') ->
     jup_fetches (world st') = S (jup_fetches (world st)) /\
     forall v dt,
       api_getJupTokenList env (world st) = (Ok v, dt) ->
       r = Ok v /\
       apiData_jupTokenList (client st') =
         Some {| fetched := clock (world st'); data := v |}) /\
  (forall c,
     _epochInfo (client st) = Some c ->
     clock (world st) - epoch_fetched c <= 30000 ->
     fetchEpochInfo env st = (Ok (epoch_value c), st)) /\
  (forall c r st',
     _epochInfo (client st) = Some c ->
     clock (world st) - epoch_fetched c > 30000 ->
     fetchEpochInfo env st = (r, st') ->
     epoch_fetches (world st') = S (epoch_fetches (world st)) /\
     forall v dt,
       connection_getEpochInfo env (world st) = (Ok v, dt) ->
       r = Ok v /\
       _epochInfo (client st') =
         Some {| epoch_fetched := clock (world st); epoch_value := v |}).
Proof.
  split; [|split; [|split]].
  - intros p fu Hp Hfresh Hfu.
    rewrite fetchJupTokenList_run, Hp, Hfu, (gtb_false _ _ Hfresh).
    reflexivity.
  - intros p fu r st' Hp Hstale.
    rewrite fetchJupTokenList_run, Hp, (gtb_true _ _ Hstale). simpl.
    rewrite refetchJupTokenList_run. simpl.
    destruct (api_getJupTokenList env (world st)) as [[v|e] dt];
      intros [= <- <-]; simpl; split.
    + rewrite jup_fetches_snoc. simpl. lia.
    + intros v' dt' [= <- <-]. split; reflexivity.
    + unfold jup_fetches. simpl.
      rewrite !List.filter_app, !length_app. simpl. lia.
    + intros v' dt' [=].
  - intros c Hc Hfresh. rewrite fetchEpochInfo_run, Hc.
    replace (_ <=? _) with true by (symmetry; apply Z.leb_le; lia).
    reflexivity.
  - intros c r st' Hc Hstale. rewrite fetchEpochInfo_run, Hc.
    replace (_ <=? _) with false by (symmetry; apply Z.leb_gt; lia).
    rewrite refetchEpochInfo_run. simpl.
    destruct (connection_getEpochInfo env (world st)) as [[v|e] dt];
      intros [= <- <-]; simpl; split.
    + rewrite epoch_fetches_snoc. simpl. lia.
    + intros v' dt' [= <- <-]. split; reflexivity.
    + rewrite epoch_fetches_snoc. simpl. lia.
    + intros v' dt' [=].
Qed.

(** C8, run: both caches were filled at time 1000. The token list is
    served from the cache at time 301000 and fetched anew at 301001; the
    epoch is served from the cache at 31000 and fetched anew at 31001. *)
Lemma C8_cached_fetch_ttl_witness :
  fetchJupTokenList env_up None (st_cached 301000)
    = (Ok [sample_token USDC "USDC"], st_cached 301000) /\
  (jup_fetches (world (snd (fetchJupTokenList env_up None (st_cached 301001))))
     = 1%nat /\
   apiData_jupTokenList
     (client (snd (fetchJupTokenList env_up None (st_cached 301001))))
     = Some {| fetched := 301011; data := [sample_token USDC "USDC"] |}) /\
  fetchEpochInfo env_up (st_cached 31000)
    = (Ok (epoch_value
             {| epoch_fetched := 1000;
                epoch_value := {| epoch_number := 600; slotIndex := 1000;
                                  slotsInEpoch := 432000;
                                  absoluteSlot := 259201000 |} |}),
       st_cached 31000) /\
  epoch_fetches (world (snd (fetchEpochInfo env_up (st_cached 31001)))) = 1%nat.
Proof.
  split; [|split; [|split]].
  - apply (proj1 (C8_cached_fetch_ttl env_up (st_cached 301000))
             {| fetched := 1000; data := [sample_token USDC "USDC"] |} None);
      [reflexivity | simpl; lia | reflexivity].
  - destruct (proj1 (proj2 (C8_cached_fetch_ttl env_up (st_cached 301001)))
                {| fetched := 1000; data := [sample_token USDC "USDC"] |} None
                _ _ eq_refl ltac:(simpl; lia) eq_refl) as [Hn Hv].
    split; [exact Hn|].
    exact (proj2 (Hv _ _ eq_refl)).
  - apply (proj1 (proj2 (proj2 (C8_cached_fetch_ttl env_up (st_cached 31000)))));
      [reflexivity | simpl; lia].
  - exact (proj1 (proj2 (proj2 (proj2 (C8_cached_fetch_ttl env_up
                                         (st_cached 31001))))
                    _ _ _ eq_refl ltac:(simpl; lia) eq_refl)).
Defined.

(** With [_apiCacheTime = -1] a cached value is stale at every moment that
    is not before its own timestamp. *)
Lemma ttl_minus_one_always_refetches env fu st p :
  apiData_jupTokenList (client st) = Some p ->
  _apiCacheTime (client st) = -1 ->
  fetched p <= clock (world st) ->
  fetchJupTokenList env fu st = refetchJupTokenList env st.
Proof.
  intros Hp Httl Hclock. rewrite fetchJupTokenList_run, Hp, Httl.
  rewrite gtb_true by lia. reflexivity.
Qed.

(** The constructor takes its TTL from [apiCacheTime] alone, and takes 0
    for "not given". *)
Lemma constructor_ttl config :
  _apiCacheTime (new_GfxCpmmClient (merge_defaults config)) =
  match apiCacheTime config with
  | Some t => if t =? 0 then 300000 else t
  | None => 300000
  end.
Proof. reflexivity. Qed.

(** [GfxCpmmClient.load(config)] with [disableLoadToken] builds the
    client and does nothing else. *)
Lemma GfxCpmmClient_load_run env config st :
  disableLoadToken config = true ->
  GfxCpmmClient_load env config st =
  (Ok tt, {| client := new_GfxCpmmClient (merge_defaults config);
             world := world st |}).
Proof. intros Hd. unfold GfxCpmmClient_load. run_M. by rewrite Hd. Qed.

(** C3, at a failing input. The client is built with both interval options
    set to -1, then asked twice in a row for the token list: it fetches
    twice, and the second call returns the new list rather than the cached
    one. Built with both options set to 0, and asked twice a minute apart,
    it fetches once, and the second call returns the cached list: its TTL
    is the default of five minutes. With [apiRequestInterval] alone set,
    to -1 or to 0, the TTL is five minutes as well: a second call after
    400 seconds fetches again, one after a minute does not. *)
Theorem C3_interval_sentinels_not_honoured :
  (let '(r, st') :=
     (GfxCpmmClient_load env_up (cfg_interval (-1));; fetch_twice env_up 0)
       (st_fresh cfg_default 1000) in
   _apiCacheTime (client st') = -1 /\
   r = Ok ([sample_token USDC "USDC"],
           [sample_token USDC "USDC"; sample_token BONK "Bonk"]) /\
   jup_fetches (world st') = 2%nat) /\
  (let '(r, st') :=
     (GfxCpmmClient_load env_up (cfg_interval 0);; fetch_twice env_up 60000)
       (st_fresh cfg_default 1000) in
   _apiCacheTime (client st') = 300000 /\
   r = Ok ([sample_token USDC "USDC"], [sample_token USDC "USDC"]) /\
   jup_fetches (world st') = 1%nat) /\
  (let '(r, st') :=
     (GfxCpmmClient_load env_up (cfg_requestInterval (-1));;
      fetch_twice env_up 400000)
       (st_fresh cfg_default 1000) in
   _apiCacheTime (client st') = 300000 /\
   jup_fetches (world st') = 2%nat) /\
  (let '(r, st') :=
     (GfxCpmmClient_load env_up (cfg_requestInterval 0);;
      fetch_twice env_up 60000)
       (st_fresh cfg_default 1000) in
   _apiCacheTime (client st') = 300000 /\
   jup_fetches (world st') = 1%nat).
Proof. repeat split. Qed.

(** C4, refuted as stated: the API is down and the cached list is stale.
    The call returns the empty list, not the list served before. *)
Lemma C4_counterexample :
  ~ failed_refresh_serves_stale env_down None (st_cached 400000).
Proof.
  intros Hclaim.
  destruct (Hclaim _ _ _ _ eq_refl eq_refl eq_refl) as [_ Habs].
  simpl in Habs. discriminate Habs.
Qed.

(** Without a cached value the outcome is the empty list as well, not the
    error of the fetch. *)
Example failed_first_fetch_returns_empty :
  fst (fetchJupTokenList env_down None (st_fresh cfg_default 1000)) = Ok [].
Proof. reflexivity. Qed.

(** C4, amended. When [fetchJupTokenList] asks the API and the API call
    fails, the client is left exactly as it was, so a cached value stays in
    place; the error is written to the console and does not reach the
    caller, who is returned the empty list, whether a cached value exists
    or not. *)
Theorem C4_failed_refresh_returns_empty (env : Env) (fu : option bool)
    (st st' : St) (e : Exn) (dt : N) (r : Outcome (list ApiV3Token)) :
  api_getJupTokenList env (world st) = (Throw e, dt) ->
  fetchJupTokenList env fu st = (r, st') ->
  jup_fetches (world st') = S (jup_fetches (world st)) ->
  r = Ok [] /\
  client st' = client st /\
  history (world st') =
    (history (world st) ++ [EvGetJupTokenList; EvConsoleError e])%list.
Proof.
  intros Hapi Hrun Hfetched.
  rewrite fetchJupTokenList_run, refetchJupTokenList_run in Hrun.
  simpl in Hrun. rewrite Hapi in Hrun.
  assert (Hmiss : (r, st') =
    (Ok [], {| client := client st;
               world := {| clock := clock (world st) + Z.of_N dt;
                           history := (history (world st) ++ [EvGetJupTokenList])
                                      ++ [EvConsoleError e] |} |})).
  { destruct (apiData_jupTokenList (client st)) as [p|]; [|congruence].
    destruct (_ && _)%bool; [|congruence].
    injection Hrun as <- <-. lia. }
  injection Hmiss as -> ->. simpl. rewrite <- app_assoc. repeat split.
Qed.

(** C4, run: the API is down and the cached list is stale. *)
Lemma C4_failed_refresh_returns_empty_witness :
  fst (fetchJupTokenList env_down None (st_cached 400000)) = Ok [] /\
  client (snd (fetchJupTokenList env_down None (st_cached 400000)))
    = client (st_cached 400000) /\
  history (world (snd (fetchJupTokenList env_down None (st_cached 400000))))
    = ([] ++ [EvGetJupTokenList; EvConsoleError (Rejected "Network Error")])%list.
Proof.
  exact (C4_failed_refresh_returns_empty env_down None (st_cached 400000) _ _ _ _
           eq_refl eq_refl eq_refl).
Defined.

(** The epoch fetch has no [catch]: a failed refresh leaves the client as
    it was and fails with the error of the ledger call. *)
Lemma fetchEpochInfo_failure_propagates env st e dt :
  connection_getEpochInfo env (world st) = (Throw e, dt) ->
  (forall c, _epochInfo (client st) = Some c ->
             clock (world st) - epoch_fetched c > 30000) ->
  fst (fetchEpochInfo env st) = Throw e /\
  client (snd (fetchEpochInfo env st)) = client st.
Proof.
  intros Hask Hstale. rewrite fetchEpochInfo_run.
  destruct (_epochInfo (client st)) as [c|].
  - replace (_ <=? _) with false
      by (symmetry; apply Z.leb_gt; specialize (Hstale c eq_refl); lia).
    rewrite refetchEpochInfo_run. simpl. rewrite Hask. split; reflexivity.
  - rewrite refetchEpochInfo_run. simpl. rewrite Hask. split; reflexivity.
Qed.

(* --------------------------------------------------------------------- *)
(** ** [endlessRetry] *)

Section RetryFacts.
Context {T : Type} (nullish : T -> bool).
Context (name : string) (call : M T) (interval : Z).

(** One iteration, by the outcome of [call]. *)
Lemma endlessRetry_body_run result st :
  endlessRetry_body name call interval result st =
  match retry_attempt name call st with
  | (Ok v, st') => (Ok (Some v), st')
  | (Throw e, st1) =>
      (Ok result, snd (retry_backoff name interval e st1))
  end.
Proof.
  unfold endlessRetry_body, retry_attempt, retry_backoff. run_M. simpl.
  destruct (call _) as [[v|e] st']; reflexivity.
Qed.

Lemma retry_backoff_ok e st : fst (retry_backoff name interval e st) = Ok tt.
Proof. reflexivity. Qed.

(** One more iteration of a loop that has fuel and no usable result. *)
Lemma endlessRetry_loop_step fuel result st :
  result_undefined nullish result = true ->
  endlessRetry_loop nullish (S fuel) name call interval result st =
  let '(r, st') := endlessRetry_body name call interval result st in
  match r with
  | Ok result' => endlessRetry_loop nullish fuel name call interval result' st'
  | Throw e => (Throw e, st')
  end.
Proof.
  intros Hres. simpl. rewrite Hres. run_M.
  destruct (endlessRetry_body name call interval result st) as [[r|e] st'];
    reflexivity.
Qed.

Lemma endlessRetry_loop_reaches st n v st' :
  retries_to nullish name call interval st n v st' ->
  forall fuel result,
    (n <= fuel)%nat ->
    result_undefined nullish result = true ->
    endlessRetry_loop nullish fuel name call interval result st
    = (Ok (Some v), st').
Proof.
  induction 1 as [st v st' Hcall Hv
                 |st e st1 st2 n v st' Hcall Hsleep _ IH
                 |st u st1 n v st' Hcall Hu _ IH];
    intros [|fuel] result Hfuel Hres; try lia;
    rewrite (endlessRetry_loop_step _ _ _ Hres), endlessRetry_body_run, Hcall.
  - destruct fuel; simpl; rewrite Hv; reflexivity.
  - rewrite Hsleep. simpl. apply IH; [lia | assumption].
  - apply IH; [lia | exact Hu].
Qed.

Lemma endlessRetry_loop_never_throws fuel : forall result st e st',
  endlessRetry_loop nullish fuel name call interval result st <> (Throw e, st').
Proof.
  induction fuel as [|fuel IH]; intros result st e st'.
  - simpl. destruct (result_undefined nullish result); discriminate.
  - destruct (result_undefined nullish result) eqn:Hres.
    + rewrite (endlessRetry_loop_step _ _ _ Hres), endlessRetry_body_run.
      destruct (retry_attempt name call st) as [[v|e0] st1]; apply IH.
    + simpl. rewrite Hres. discriminate.
Qed.

(** A loop that has a usable result returns it without a further turn. *)
Lemma endlessRetry_loop_done fuel result st :
  result_undefined nullish result = false ->
  endlessRetry_loop nullish fuel name call interval result st = (Ok result, st).
Proof. intros Hres. destruct fuel; simpl; rewrite Hres; reflexivity. Qed.

(** Whatever the loop returns it has reached in the way [retries_to]
    describes. *)
Lemma endlessRetry_loop_returns fuel : forall result st v st',
  result_undefined nullish result = true ->
  endlessRetry_loop nullish fuel name call interval result st
    = (Ok (Some v), st') ->
  exists n, (n <= fuel)%nat /\ retries_to nullish name call interval st n v st'.
Proof.
  induction fuel as [|fuel IH]; intros result st v st' Hres.
  - simpl. rewrite Hres. discriminate.
  - rewrite (endlessRetry_loop_step _ _ _ Hres), endlessRetry_body_run.
    destruct (retry_attempt name call st) as [[u|e] st1] eqn:Hcall.
    + destruct (nullish u) eqn:Hu.
      * intros Hrun. destruct (IH (Some u) st1 v st' Hu Hrun) as (n & Hn & Hto).
        exists (S n). split; [lia|]. by eapply retries_nullish.
      * rewrite endlessRetry_loop_done by exact Hu. intros [= <- <-].
        exists 1%nat. split; [lia|]. by apply retries_done.
    + intros Hrun. destruct (IH result _ v st' Hres Hrun) as (n & Hn & Hto).
      exists (S n). split; [lia|].
      eapply retries_failed; [exact Hcall | reflexivity | exact Hto].
Qed.

End RetryFacts.

(** C5, refuted as stated: the first invocation succeeds, with
    [undefined]; [endlessRetry] does not return that value but invokes
    [call] again. *)
Lemma C5_counterexample :
  ~ returns_first_success is_undefined "poll" undefined_then_7 None
      (st_fresh cfg_default 1000).
Proof.
  intros Hclaim.
  specialize (Hclaim None _ eq_refl 1%nat).
  vm_compute in Hclaim. discriminate Hclaim.
Qed.

(** C5, amended. [endlessRetry(name, call, interval)] returns the value of
    the first invocation of [call] that resolves to a value other than
    [undefined] and [null], in the state that invocation left, hence at
    once and without invoking [call] again: if that is the [n]-th
    invocation, [n] iterations of the loop are enough. Before it, every
    invocation that failed was followed by one error log and one sleep of
    [interval] ms (1000 when not given), and every invocation that resolved
    to [undefined] or [null] by an immediate further invocation
    ([retries_to]). It returns no value in any other way, and however long
    the loop runs, it raises no error. *)
Theorem C5_endlessRetry_first_usable_value {T : Type} (nullish : T -> bool)
    (name : string) (call : M T) (interval : option Z) (st : St) :
  (forall n v st',
     retries_to nullish name call (default 1000 interval) st n v st' ->
     forall fuel, (n <= fuel)%nat ->
       endlessRetry nullish fuel name call interval st = (Ok (Some v), st')) /\
  (forall fuel v st',
     endlessRetry nullish fuel name call interval st = (Ok (Some v), st') ->
     exists n, (n <= fuel)%nat /\
       retries_to nullish name call (default 1000 interval) st n v st') /\
  (forall fuel e st',
     endlessRetry nullish fuel name call interval st <> (Throw e, st')).
Proof.
  split; [|split].
  - intros n v st' Hruns fuel Hfuel. unfold endlessRetry.
    by apply (endlessRetry_loop_reaches nullish name call _ st n v st').
  - intros fuel v st'. unfold endlessRetry.
    by apply endlessRetry_loop_returns.
  - intros fuel e st'. apply endlessRetry_loop_never_throws.
Qed.

(** C5, run: [call] is rejected once and then resolves to 7. The value 7
    is returned after one error log and one sleep of the default 1000 ms,
    with two invocations in all. *)
Lemma C5_endlessRetry_first_usable_value_witness :
  endlessRetry is_undefined 5 "poll" rejected_then_7 None
    (st_fresh cfg_default 1000)
  = (Ok (Some (Some 7)),
     {| client := client (st_fresh cfg_default 1000);
        world :=
          {| clock := 2000;
             history :=
               [EvLoggerDebug "Request poll through endlessRetry";
                EvLoggerError "Request poll failed, retry after 1000 ms"
                  (Rejected "timeout");
                EvSleep 1000;
                EvLoggerDebug "Request poll through endlessRetry"] |} |}).
Proof.
  apply (proj1 (C5_endlessRetry_first_usable_value is_undefined "poll"
                  rejected_then_7 None (st_fresh cfg_default 1000))
           2%nat (Some 7)).
  - eapply retries_failed; [reflexivity | reflexivity |].
    apply retries_done; reflexivity.
  - lia.
Defined.

(* --------------------------------------------------------------------- *)
(** ** The layout decoder *)

Module LayoutFacts.
Import Layout.

Lemma byte_of_to_N b : byte_of_N (Byte.to_N b) = b.
Proof. unfold byte_of_N. by rewrite Byte.of_to_N. Qed.

Lemma le_encode_decode bs : le_encode (length bs) (le_decode bs) = bs.
Proof.
  induction bs as [|b bs IH]; simpl; [reflexivity|].
  pose proof (Byte.to_N_bounded b) as Hb.
  assert (Hmod : ((Byte.to_N b + 256 * le_decode bs) mod 256 = Byte.to_N b)%N).
  { rewrite (N.mul_comm 256), N.Div0.mod_add. apply N.mod_small. lia. }
  assert (Hdiv : ((Byte.to_N b + 256 * le_decode bs) / 256 = le_decode bs)%N).
  { rewrite (N.mul_comm 256), N.div_add by lia.
    rewrite N.div_small by lia. lia. }
  rewrite Hmod, Hdiv, byte_of_to_N, IH. reflexivity.
Qed.

Lemma chunks_length w n bs : length (chunks w n bs) = n.
Proof. revert bs. induction n; intros; simpl; auto. Qed.

Lemma chunks_widths w n : forall bs,
  length bs = (w * n)%nat -> Forall (fun c => length c = w) (chunks w n bs).
Proof.
  induction n as [|n IH]; intros bs Hlen; simpl; constructor.
  - rewrite length_take. lia.
  - apply IH. rewrite length_drop. lia.
Qed.

Lemma chunks_concat w n : forall bs,
  length bs = (w * n)%nat -> concat (chunks w n bs) = bs.
Proof.
  induction n as [|n IH]; intros bs Hlen; simpl.
  - destruct bs; [reflexivity | simpl in Hlen; lia].
  - rewrite IH by (rewrite length_drop; lia). apply take_drop.
Qed.

(** The prefix and the fields after it make up the schema. *)
Lemma totalWidth_body s :
  totalWidth s = (prefix_width s + totalWidth (body s))%nat.
Proof.
  destruct s as [|f s]; [reflexivity|]. simpl.
  destruct (is_prefix f); reflexivity.
Qed.

Lemma names_body s : names (body s) = names s.
Proof.
  destruct s as [|f s]; [reflexivity|]. unfold body, is_prefix.
  destruct (f_name f) eqn:Hn; [reflexivity|].
  destruct (f_kind f); try reflexivity.
  destruct (f_repeat f); [reflexivity|].
  unfold names. simpl. by rewrite Hn.
Qed.

Lemma zero_padding_length s (buffer : list byte) :
  length buffer = totalWidth s ->
  length (take (prefix_width s) buffer) = prefix_width s.
Proof. intros Hlen. rewrite length_take, Hlen, totalWidth_body. lia. Qed.

(** Zeroing the padding leaves the prefix as it is. *)
Lemma zero_padding_prefix s buffer :
  length buffer = totalWidth s ->
  take (prefix_width s) (zero_padding s buffer)
  = take (prefix_width s) buffer.
Proof.
  intros Hlen. unfold zero_padding.
  rewrite take_app_length'
    by (symmetry; by apply zero_padding_length).
  reflexivity.
Qed.

Section WithCodec.
Context `{KeyCodec}.

Lemma encode_decode_kind k bs :
  length bs = width k ->
  canonical_kind k bs = true ->
  encode_kind k (decode_kind k bs) = Some bs.
Proof.
  intros Hlen Hcanon.
  destruct k; unfold encode_kind, decode_kind, width in *;
    try (rewrite <- Hlen, le_encode_decode; reflexivity).
  - rewrite key_of_to_string by assumption. simpl.
    rewrite decide_True by assumption. reflexivity.
  - destruct bs as [|b [|b' bs]]; try discriminate Hcanon.
    simpl in Hcanon. apply orb_prop in Hcanon as [Hb | Hb];
      apply Byte.byte_dec_bl in Hb; subst b; reflexivity.
  - rewrite decide_True by assumption. reflexivity.
Qed.

Lemma encode_decode_elems k cs :
  Forall (fun c => length c = width k) cs ->
  forallb (canonical_kind k) cs = true ->
  mapM (encode_kind k) (decode_kind k <$> cs) = Some cs.
Proof.
  intros Hcs Hcanon. apply mapM_Some.
  induction Hcs as [|c cs Hc _ IH]; simpl in *; constructor.
  - apply andb_prop in Hcanon as [Hc' _]. by apply encode_decode_kind.
  - apply andb_prop in Hcanon as [_ Hcs']. by apply IH.
Qed.

Lemma encode_decode_field f bs n :
  f_name f = Some n ->
  length bs = field_width f ->
  canonical_field f bs = true ->
  encode_field f (decode_field f bs) = Some bs.
Proof.
  intros Hn Hlen. unfold encode_field, decode_field, canonical_field,
    field_width in *.
  rewrite Hn. destruct (f_repeat f) as [c|]; intros Hcanon.
  - rewrite decide_True by (by rewrite length_fmap, chunks_length).
    rewrite encode_decode_elems by (try assumption; by apply chunks_widths).
    simpl. by rewrite chunks_concat.
  - destruct (decode_kind (f_kind f) bs) eqn:Hv;
      rewrite <- Hv; by apply encode_decode_kind.
Qed.

Lemma decode_fields_other s : forall bs acc n,
  n ∉ names s -> decode_fields s bs acc !! n = acc !! n.
Proof.
  induction s as [|f s IH]; intros bs acc n Hn; simpl; [reflexivity|].
  rewrite IH.
  - destruct (f_name f) as [m|] eqn:Hm; [|reflexivity].
    apply lookup_insert_ne. intros ->. apply Hn.
    unfold names. simpl. rewrite Hm. set_solver.
  - intros Hin. apply Hn. unfold names in *. simpl.
    destruct (f_name f); set_solver.
Qed.

Lemma encode_decode_fields s : forall bs acc r,
  NoDup (names s) ->
  length bs = totalWidth s ->
  canonical_fields s bs = true ->
  (forall n, n ∈ names s -> r !! n = decode_fields s bs acc !! n) ->
  encode_fields s r = Some (zero_fields s bs).
Proof.
  induction s as [|f s IH]; intros bs acc r Hnd Hlen Hcanon Hr; simpl;
    [reflexivity|].
  simpl in Hlen, Hcanon. apply andb_prop in Hcanon as [Hcf Hcs].
  assert (Hhere : length (take (field_width f) bs) = field_width f)
    by (rewrite length_take; lia).
  assert (Hrest : length (drop (field_width f) bs) = totalWidth s)
    by (rewrite length_drop; lia).
  unfold names in Hnd, Hr. simpl in Hnd, Hr.
  destruct (f_name f) as [n|] eqn:Hn.
  - apply NoDup_cons in Hnd as [Hfresh Hnd].
    assert (Hs : encode_fields s r
                 = Some (zero_fields s (drop (field_width f) bs))).
    { apply (IH _ (<[n := decode_field f (take (field_width f) bs)]> acc));
        [exact Hnd | exact Hrest | exact Hcs |].
      intros m Hm. apply Hr. set_solver. }
    rewrite (Hr n) by set_solver.
    rewrite (decode_fields_other s _ _ n Hfresh), lookup_insert_eq. simpl.
    rewrite (encode_decode_field f _ n Hn Hhere Hcf). simpl.
    rewrite Hs. simpl. unfold zero_field. rewrite Hn. reflexivity.
  - assert (Hs : encode_fields s r
                 = Some (zero_fields s (drop (field_width f) bs))).
    { apply (IH _ acc); [exact Hnd | exact Hrest | exact Hcs | exact Hr]. }
    simpl. rewrite Hs. simpl. unfold zero_field. rewrite Hn. reflexivity.
Qed.

(** Decoding a buffer of the right width gives a record that holds the
    prefix, and encoding that record gives the buffer with its padding
    zeroed. *)
Lemma decode_encode_zero_padding s buffer :
  valid s ->
  length buffer = totalWidth s ->
  canonical_bools s buffer = true ->
  exists r,
    decode s buffer = Some r /\
    rec_prefix r = take (prefix_width s) buffer /\
    encode s r = Some (zero_padding s buffer).
Proof.
  intros Hvalid Hlen Hcanon. eexists. split; [|split].
  - unfold decode. rewrite decide_True by assumption. reflexivity.
  - reflexivity.
  - unfold encode. simpl.
    rewrite decide_True by (by apply zero_padding_length).
    rewrite (encode_decode_fields (body s) (drop (prefix_width s) buffer) ∅).
    + reflexivity.
    + unfold valid in Hvalid. by rewrite names_body.
    + rewrite length_drop, Hlen, totalWidth_body. lia.
    + exact Hcanon.
    + reflexivity.
Qed.

Lemma round_trip_iff_padding_zero s buffer :
  valid s ->
  length buffer = totalWidth s ->
  canonical_bools s buffer = true ->
  round_trip s buffer <-> zero_padding s buffer = buffer.
Proof.
  intros Hvalid Hlen Hcanon.
  destruct (decode_encode_zero_padding s buffer Hvalid Hlen Hcanon)
    as (r & Hd & _ & He).
  split.
  - intros (r' & Hd' & He'). congruence.
  - intros Hc. exists r. split; [exact Hd | congruence].
Qed.

End WithCodec.

(** The two layouts are valid, 236 and 637 bytes wide, and begin with a
    prefix of 8 bytes. *)
Lemma layouts_valid :
  valid CpmmConfigInfoLayout /\ totalWidth CpmmConfigInfoLayout = 236%nat /\
  valid CpmmPoolInfoLayout /\ totalWidth CpmmPoolInfoLayout = 637%nat.
Proof.
  repeat split; try reflexivity;
    unfold valid; apply (bool_decide_unpack _); by vm_compute.
Qed.

Lemma layouts_prefix :
  prefix_width CpmmConfigInfoLayout = 8%nat /\
  prefix_width CpmmPoolInfoLayout = 8%nat.
Proof. split; reflexivity. Qed.

(** C9, refuted as stated: a pool-configuration buffer of the right width
    whose last reserved byte is 1 does not survive decoding and
    re-encoding, the reserved words being padding. *)
Lemma C9_counterexample :
  ~ @round_trip raw_codec CpmmConfigInfoLayout config_buffer_reserved_set.
Proof.
  intros Hrt.
  apply (round_trip_iff_padding_zero (H := raw_codec)) in Hrt;
    [| apply layouts_valid | reflexivity | reflexivity].
  vm_compute in Hrt. discriminate Hrt.
Qed.

(** C9, amended. For every schema without a repeated field name, in
    particular the pool-configuration and the pool-state schema, every
    codec and every buffer as wide as the schema whose boolean fields hold
    0 or 1: encoding the record produced by decoding the buffer gives the
    buffer back byte for byte, the prefix included, except that the bytes
    of the padding fields are zero ([zero_padding]). So the buffer is
    reproduced exactly when its padding fields are zero. Nothing is said of
    a buffer with another byte in a boolean field. *)
Theorem C9_round_trip_up_to_padding `{KeyCodec} (s : Schema)
    (buffer : list byte) :
  valid s ->
  length buffer = totalWidth s ->
  canonical_bools s buffer = true ->
  (exists r,
     decode s buffer = Some r /\
     rec_prefix r = take (prefix_width s) buffer /\
     encode s r = Some (zero_padding s buffer)) /\
  take (prefix_width s) (zero_padding s buffer)
    = take (prefix_width s) buffer /\
  (round_trip s buffer <-> zero_padding s buffer = buffer).
Proof.
  intros Hvalid Hlen Hcanon. split; [|split].
  - by apply decode_encode_zero_padding.
  - by apply zero_padding_prefix.
  - by apply round_trip_iff_padding_zero.
Qed.

(** C9, run: a pool-configuration buffer with a discriminator and zero
    reserved words comes back as it was, discriminator included. *)
Lemma C9_round_trip_up_to_padding_witness :
  exists r,
    @decode raw_codec CpmmConfigInfoLayout config_buffer_sample = Some r /\
    rec_prefix r = [x9b; x0c; xaa; xe0; x1e; xfa; xcc; x82] /\
    @encode raw_codec CpmmConfigInfoLayout r = Some config_buffer_sample.
Proof.
  exact (proj1 (@C9_round_trip_up_to_padding raw_codec CpmmConfigInfoLayout
                  config_buffer_sample (proj1 layouts_valid) eq_refl
                  eq_refl)).
Defined.

(** A boolean byte other than 0 or 1 is read as true and written back as
    1: a buffer that is zero but for a 2 in [disableCreatePool] is not
    reproduced either. *)
Example boolean_byte_rewritten :
  let buffer := (replicate 9 x00 ++ [x02] ++ replicate 226 x00)%list in
  canonical_bools CpmmConfigInfoLayout buffer = false /\
  exists r,
    @decode raw_codec CpmmConfigInfoLayout buffer = Some r /\
    rec_fields r !! "disableCreatePool" = Some (VBool true) /\
    @encode raw_codec CpmmConfigInfoLayout r
      = Some (replicate 9 x00 ++ [x01] ++ replicate 226 x00)%list.
Proof.
  split; [reflexivity|]. eexists. split; [reflexivity|].
  split; by vm_compute.
Qed.

(** The same buffer with its last reserved byte set comes back with that
    byte zero. *)
Example reserved_words_zeroed :
  exists r,
    @decode raw_codec CpmmConfigInfoLayout config_buffer_reserved_set
      = Some r /\
    @encode raw_codec CpmmConfigInfoLayout r = Some (replicate 236 x00).
Proof. eexists. split; [reflexivity|]. by vm_compute. Qed.

(** The scenario of section 8 of the specification. *)
Example decode_scenario :
  let schema := struct [blob 8 None; u8 (Some "bump"); u16 (Some "index");
                        u64 (Some "fee")] in
  let buffer := (replicate 8 x00 ++ [x05; x0a; x00]
                 ++ [xe8; x03; x00; x00; x00; x00; x00; x00])%list in
  exists r,
    @decode raw_codec schema buffer = Some r /\
    rec_fields r !! "bump" = Some (VNum 5) /\
    rec_fields r !! "index" = Some (VNum 10) /\
    rec_fields r !! "fee" = Some (VNum 1000).
Proof. eexists. split; [reflexivity|]. by vm_compute. Qed.

End LayoutFacts.

(* ===================================================================== *)
(** * Further properties of the code *)
(* ===================================================================== *)

(* --------------------------------------------------------------------- *)
(** ** [getTokenInfo]: when it goes out, and what it remembers *)

Lemma snoc_neq {A} (l : list A) (x : A) (l' : list A) :
  (l ++ x :: l')%list <> l.
Proof.
  intros Heq. apply (f_equal length) in Heq.
  rewrite length_app in Heq. simpl in Heq. lia.
Qed.

Lemma getTokenInfo_hit env mint st info :
  str_truthy mint = true ->
  map_get mint (_tokenMap (token (client st))) = Some info ->
  getTokenInfo env mint st = (Ok info, st).
Proof.
  intros Hm Hget. unfold getTokenInfo. run_M. rewrite Hm. simpl.
  by rewrite Hget.
Qed.

Lemma getTokenInfo_alias env mint st :
  str_truthy mint = true ->
  map_get mint (_tokenMap (token (client st))) = None ->
  String.eqb (toLocaleUpperCase mint) "SOL" = true ->
  getTokenInfo env mint st = (Ok (SOL_INFO env), st).
Proof.
  intros Hm Hget Ha. unfold getTokenInfo. run_M. rewrite Hm. simpl.
  by rewrite Hget, Ha.
Qed.

(** X1. [getTokenInfo] goes out to a collaborator exactly when the address
    is non-empty, has no record in the table and is not the alias of the
    native asset, whatever its case: in the three other situations it makes
    no remote call and leaves client and world as they are. *)
Theorem getTokenInfo_local_iff (env : Env) (mint : string) (st st' : St)
    (r : Outcome ApiV3Token) :
  getTokenInfo env mint st = (r, st') ->
  (history (world st') = history (world st) <->
   str_truthy mint = false \/
   is_Some (map_get mint (_tokenMap (token (client st)))) \/
   String.eqb (toLocaleUpperCase mint) "SOL" = true) /\
  (history (world st') = history (world st) -> st' = st).
Proof.
  getTokenInfo_cases env mint st; intros [= <- <-]; simpl;
    rewrite <- ?app_assoc; simpl.
  all: split; [split|];
    first [ reflexivity
          | intros _; eauto; fail
          | intros Habs; by apply snoc_neq in Habs
          | intros [Habs|[[x Habs]|Habs]]; congruence
          | idtac ].
Qed.

(** X1, run: [sol] in lower case on a loaded client. *)
Lemma getTokenInfo_local_iff_witness :
  (history (world (snd (getTokenInfo env_up "sol" st_loaded)))
     = history (world st_loaded) <->
   str_truthy "sol" = false \/
   is_Some (map_get "sol" (_tokenMap (token (client st_loaded)))) \/
   String.eqb (toLocaleUpperCase "sol") "SOL" = true) /\
  (history (world (snd (getTokenInfo env_up "sol" st_loaded)))
     = history (world st_loaded) ->
   snd (getTokenInfo env_up "sol" st_loaded) = st_loaded).
Proof.
  exact (getTokenInfo_local_iff env_up "sol" st_loaded _ _ eq_refl).
Defined.

(** How a successful call ended: the remote calls it made, and the record
    it left in the table at [mint]. *)
Lemma getTokenInfo_ok_inv env mint st r st1 :
  getTokenInfo env mint st = (Ok r, st1) ->
  str_truthy mint = true /\
  ((history (world st1) = history (world st) /\
    (map_get mint (_tokenMap (token (client st1))) = Some r \/
     (map_get mint (_tokenMap (token (client st1))) = None /\
      String.eqb (toLocaleUpperCase mint) "SOL" = true /\
      r = SOL_INFO env))) \/
   (history (world st1)
    = (history (world st) ++ [EvGetTokenInfo [mint]])%list /\
    map_get mint (_tokenMap (token (client st1)))
    = Some (with_priority 2 r)) \/
   ((exists pubkey,
       history (world st1)
       = (history (world st)
          ++ [EvGetTokenInfo [mint]; EvGetAccountInfo pubkey])%list) /\
    map_get mint (_tokenMap (token (client st1))) = Some r)).
Proof.
  getTokenInfo_cases env mint st; intros [= <- <-]; simpl;
    rewrite <- ?app_assoc; simpl;
    (split; [reflexivity|]).
  - left. split; [reflexivity | by left].
  - left. split; [reflexivity | right; repeat split; assumption].
  - right; left. split; [reflexivity | apply map_get_set_eq].
  - right; right. split; [by eexists | apply map_get_set_eq].
  - right; right. split; [by eexists | apply map_get_set_eq].
Qed.

(** X2. An address that [getTokenInfo] has resolved is remembered: a second
    call for it right after makes no remote call, changes nothing and
    succeeds. When the first call got its record from the metadata API, its
    one remote call then, the second call returns that record with priority
    2 and every other field as it was. In every other case, the first
    record having come from the table, from the alias of the native asset
    or from the ledger, the second call returns the same record. *)
Theorem getTokenInfo_memo (env : Env) (mint : string) (st st1 : St)
    (r : ApiV3Token) :
  getTokenInfo env mint st = (Ok r, st1) ->
  exists r2,
    getTokenInfo env mint st1 = (Ok r2, st1) /\
    matches_source r2 r /\
    type r2 = type r /\
    (history (world st1)
     = (history (world st) ++ [EvGetTokenInfo [mint]])%list ->
     priority r2 = Some 2) /\
    (history (world st1)
     <> (history (world st) ++ [EvGetTokenInfo [mint]])%list ->
     r2 = r).
Proof.
  intros Hrun.
  destruct (getTokenInfo_ok_inv _ _ _ _ _ Hrun)
    as (Hm & [(Hh & [Hget | (Hget & Ha & ->)])
             | [(Hh & Hget) | ((pubkey & Hh) & Hget)]]).
  - exists r. split; [by apply getTokenInfo_hit|].
    split; [by repeat split|]. split; [reflexivity|]. split.
    + rewrite Hh. intros Habs. symmetry in Habs. by apply snoc_neq in Habs.
    + reflexivity.
  - exists (SOL_INFO env). split; [by apply getTokenInfo_alias|].
    split; [by repeat split|]. split; [reflexivity|]. split.
    + rewrite Hh. intros Habs. symmetry in Habs. by apply snoc_neq in Habs.
    + reflexivity.
  - exists (with_priority 2 r). split; [by apply getTokenInfo_hit|].
    split; [by repeat split|]. split; [reflexivity|]. split.
    + reflexivity.
    + intros Habs. by destruct Habs.
  - exists r. split; [by apply getTokenInfo_hit|].
    split; [by repeat split|]. split; [reflexivity|]. split.
    + rewrite Hh. intros Habs. apply app_inv_head in Habs. discriminate Habs.
    + reflexivity.
Qed.

(** X2, run: [JUP], which the API delivers without a priority, is resolved
    through the API and asked again; the second answer has priority 2. *)
Lemma getTokenInfo_memo_witness :
  let st1 := snd (getTokenInfo env_up JUP st_loaded) in
  priority (sample_token JUP "JUP") = None /\
  exists r2,
    getTokenInfo env_up JUP st1 = (Ok r2, st1) /\
    symbol r2 = "JUP" /\
    priority r2 = Some 2.
Proof.
  intros st1. split; [reflexivity|].
  destruct (getTokenInfo_memo env_up JUP st_loaded st1
              (sample_token JUP "JUP") eq_refl)
    as (r2 & Hrun & (_ & _ & _ & _ & Hs & _) & _ & Hp & _).
  exists r2. split; [exact Hrun|]. split; [exact Hs | exact (Hp eq_refl)].
Defined.

(* --------------------------------------------------------------------- *)
(** ** Invariants of the token module *)

Lemma last_with_is_Some addr l :
  is_Some (last_with addr l) <-> addr ∈ address <$> l.
Proof.
  induction l as [|t l IH]; simpl.
  - split; [intros [x Hx]; discriminate | set_solver].
  - destruct (last_with addr l) as [t'|].
    + split; [intros _|eauto]. apply list_elem_of_further, IH. eauto.
    + destruct (String.eqb_spec (address t) addr) as [<-|Hne].
      * split; [intros _; by left | eauto].
      * split; [intros [x Hx]; discriminate|].
        intros [Heq|Hin]%elem_of_cons; [congruence|].
        apply IH in Hin. destruct Hin as [x Hx]. discriminate.
Qed.

Lemma load_rebuild_consistent env jupList tm :
  consistent (load_rebuild env jupList tm).
Proof.
  destruct (load_rebuild_spec env jupList tm) as (Hm & Ho & Hj & He & _).
  intros k. rewrite Hm, Ho, Hj, He. unfold merged.
  rewrite !elem_of_union, !elem_of_list_to_set, <- !last_with_is_Some,
    elem_of_singleton.
  destruct (last_with k (_extraTokenList tm)); [split; eauto|].
  destruct (last_with k jupList); [split; eauto|].
  destruct (String.eqb_spec (address (SOL_INFO env)) k) as [->|Hne].
  - split; eauto.
  - split; [intros [x Hx]; discriminate|].
    intros [[Heq|[x Hx]]|[x Hx]]; congruence.
Qed.

Lemma getTokenInfo_consistent env mint st r st' :
  consistent (token (client st)) ->
  getTokenInfo env mint st = (r, st') ->
  consistent (token (client st')).
Proof.
  unfold consistent. intros Hc.
  getTokenInfo_cases env mint st; intros [= <- <-]; simpl; try exact Hc.
  all: intros k; rewrite map_get_set;
    destruct (String.eqb_spec mint k) as [->|Hne];
    [ split; [intros _; set_solver | eauto]
    | rewrite Hc; set_solver ].
Qed.

(** X3. The table and the provenance sets stay in step: an address has a
    record in the table exactly when one of the sets official, jup and
    extra holds it. This is so for a new module, after every [load] that
    returns, and it is preserved by every call of [getTokenInfo], whatever
    its outcome. *)
Theorem table_matches_provenance (env : Env) :
  consistent new_TokenModule /\
  (forall params st st',
     load env params st = (Ok tt, st') -> consistent (token (client st'))) /\
  (forall mint st r st',
     consistent (token (client st)) ->
     getTokenInfo env mint st = (r, st') ->
     consistent (token (client st'))).
Proof.
  split; [|split].
  - intros k. simpl. split; [intros [x Hx]; discriminate | set_solver].
  - intros params st st' Hload.
    destruct (load_ok_inv _ _ _ _ Hload) as (l & st1 & _ & _ & ->).
    simpl. apply load_rebuild_consistent.
  - intros mint st r st'. apply getTokenInfo_consistent.
Qed.

(** X3, run: after a load, and after a resolution through the API. *)
Lemma table_matches_provenance_witness :
  consistent (token (client st_loaded)) /\
  consistent (token (client (snd (getTokenInfo env_up JUP st_loaded)))).
Proof.
  pose proof (proj1 (proj2 (table_matches_provenance env_up)) None
                (st_fresh cfg_default 1000) st_loaded eq_refl) as Hloaded.
  split; [exact Hloaded|].
  exact (proj2 (proj2 (table_matches_provenance env_up)) JUP st_loaded _ _
           Hloaded eq_refl).
Defined.

(** Keys of a map, and what [set] does to them. *)
Lemma map_get_is_Some {V} (k : string) (m : JsMap V) :
  is_Some (map_get k m) <-> k ∈ m.*1.
Proof.
  induction m as [|[k0 v0] m IH]; simpl.
  - split; [intros [x Hx]; discriminate | set_solver].
  - destruct (String.eqb_spec k0 k) as [->|Hne].
    + split; [intros _; by left | eauto].
    + rewrite IH, elem_of_cons. split; [by right | intros [?|?]; [congruence | assumption]].
Qed.

Lemma map_set_keys {V} (k : string) (v : V) (m : JsMap V) :
  (map_set k v m).*1 = if map_has k m then m.*1 else (m.*1 ++ [k])%list.
Proof.
  unfold map_has. induction m as [|[k0 v0] m IH]; [reflexivity|].
  simpl map_set. simpl map_get.
  destruct (String.eqb_spec k0 k) as [->|Hne]; [reflexivity|].
  rewrite !fmap_cons, IH. destruct (map_get k m); reflexivity.
Qed.

Lemma map_set_NoDup {V} (k : string) (v : V) (m : JsMap V) :
  NoDup m.*1 -> NoDup (map_set k v m).*1.
Proof.
  intros Hnd. rewrite map_set_keys. unfold map_has.
  destruct (map_get k m) eqn:Hget; [exact Hnd|].
  apply NoDup_app. split; [exact Hnd|]. split; [|apply NoDup_singleton].
  intros x Hx ->%list_elem_of_singleton.
  apply map_get_is_Some in Hx. rewrite Hget in Hx. by destruct Hx.
Qed.

Lemma map_set_keyed k v (m : JsMap TokenInfo) :
  keyed_by_address m -> address v = k -> keyed_by_address (map_set k v m).
Proof.
  unfold keyed_by_address. intros Hm Hv.
  induction m as [|[k0 v0] m IH]; simpl.
  - by repeat constructor.
  - apply Forall_cons in Hm as [H0 Hm].
    destruct (String.eqb_spec k0 k) as [->|Hne]; constructor; auto.
Qed.

Lemma fold_jup_tidy l : forall tm,
  tidy (_tokenMap tm) -> tidy (_tokenMap (fold_left load_jup_step l tm)).
Proof.
  induction l as [|t l IH]; intros tm [Hnd Hk]; simpl; [by split|].
  apply IH. simpl. split; [by apply map_set_NoDup | by apply map_set_keyed].
Qed.

Lemma fold_extra_tidy l : forall tm,
  tidy (_tokenMap tm) -> tidy (_tokenMap (fold_left load_extra_step l tm)).
Proof.
  induction l as [|t l IH]; intros tm [Hnd Hk]; simpl; [by split|].
  apply IH. simpl. split; [by apply map_set_NoDup | by apply map_set_keyed].
Qed.

Lemma load_rebuild_tidy env jupList tm :
  tidy (_tokenMap (load_rebuild env jupList tm)).
Proof.
  unfold load_rebuild. simpl. apply fold_extra_tidy, fold_jup_tidy. simpl.
  split; [apply NoDup_singleton | by repeat constructor].
Qed.

Lemma tidy_addresses m :
  tidy m -> address <$> map_values m = m.*1.
Proof.
  intros [_ Hk]. unfold map_values.
  induction Hk as [|[k v] m Hkv _ IH]; [reflexivity|].
  simpl in Hkv. change (map snd ((k, v) :: m)) with (v :: map snd m).
  rewrite !fmap_cons, IH. simpl. by rewrite Hkv.
Qed.

(** X4. After a [load] that returns, the list view holds each address
    once, every record of the table is filed under its own address, and
    the list view has as many records as the three provenance sets have
    addresses between them. *)
Theorem load_lists_each_address_once (env : Env)
    (params : option LoadParams) (st st' : St) :
  load env params st = (Ok tt, st') ->
  let tm' := token (client st') in
  NoDup (address <$> tokenList tm') /\
  keyed_by_address (tokenMap tm') /\
  length (tokenList tm') =
    size (official (mintGroup tm') ∪ jup (mintGroup tm') ∪ extra (mintGroup tm')).
Proof.
  intros Hload.
  destruct (load_ok_inv _ _ _ _ Hload) as (l & st1 & _ & _ & ->).
  cbn [client token set_token]. set (tm := token (client st1)).
  pose proof (load_rebuild_tidy env l tm) as Htidy.
  pose proof (load_rebuild_consistent env l tm) as Hcons.
  destruct (load_rebuild_spec env l tm) as (_ & _ & _ & _ & Hlist & _).
  unfold tokenList, tokenMap, mintGroup. rewrite Hlist.
  rewrite (tidy_addresses _ Htidy).
  split; [apply Htidy|]. split; [apply Htidy|].
  rewrite <- (length_fmap address), (tidy_addresses _ Htidy).
  rewrite <- (size_list_to_set (C := gset string)) by apply Htidy.
  f_equal. apply set_eq. intros k.
  rewrite elem_of_list_to_set, <- map_get_is_Some. apply Hcons.
Qed.

(** X4, run: USDC is in the external list and in the curated list. *)
Lemma load_lists_each_address_once_witness :
  let tm' := token (client (snd (load env_collision None
                                   (st_curated [sample_token USDC "cUSDC"])))) in
  NoDup (address <$> tokenList tm') /\
  keyed_by_address (tokenMap tm') /\
  length (tokenList tm') =
    size (official (mintGroup tm') ∪ jup (mintGroup tm') ∪ extra (mintGroup tm')).
Proof.
  exact (load_lists_each_address_once env_collision None
           (st_curated [sample_token USDC "cUSDC"]) _ eq_refl).
Defined.

(* --------------------------------------------------------------------- *)
(** ** [load] and the cache *)

Lemma load_rebuild_ext env jupList tm1 tm2 :
  _extraTokenList tm1 = _extraTokenList tm2 ->
  load_rebuild env jupList tm1 = load_rebuild env jupList tm2.
Proof.
  intros Hx. unfold load_rebuild.
  assert (Hreset : load_reset tm1 = load_reset tm2)
    by (unfold load_reset; by rewrite Hx).
  by rewrite Hreset.
Qed.

Lemma load_rebuild_idem env jupList tm :
  load_rebuild env jupList (load_rebuild env jupList tm)
  = load_rebuild env jupList tm.
Proof.
  apply load_rebuild_ext.
  by destruct (load_rebuild_spec env jupList tm) as (_ & _ & _ & _ & _ & ->).
Qed.

(** X5. With the module enabled, a fresh cached token list and no forced
    update, [load] makes no remote call and rebuilds the table from the
    cached list; loading once more leaves client and world exactly as they
    are. *)
Theorem load_from_fresh_cache (env : Env) (params : option LoadParams)
    (st : St) (p : DataBase (list ApiV3Token)) :
  checkDisabled env = None ->
  apiData_jupTokenList (client st) = Some p ->
  clock (world st) - fetched p <= _apiCacheTime (client st) ->
  load_forceUpdate params = false ->
  exists st1,
    load env params st = (Ok tt, st1) /\
    world st1 = world st /\
    token (client st1) = load_rebuild env (data p) (token (client st)) /\
    load env params st1 = (Ok tt, st1).
Proof.
  intros Hen Hp Hfresh Hfu.
  assert (Hfetch : forall c w,
    apiData_jupTokenList c = Some p -> _apiCacheTime c = _apiCacheTime (client st) ->
    clock w = clock (world st) ->
    fetchJupTokenList env (Some (load_forceUpdate params))
      {| client := c; world := w |} = (Ok (data p), {| client := c; world := w |})).
  { intros c w Hc Httl Hw. rewrite fetchJupTokenList_run. simpl.
    rewrite Hc, Httl, Hw, Hfu, (gtb_false _ _ Hfresh). reflexivity. }
  destruct st as [c w]. simpl in *.
  set (c1 := set_token (load_rebuild env (data p)) c).
  exists {| client := c1; world := w |}.
  split; [|split; [|split]].
  - by rewrite (load_run env params _ (data p) _ Hen
                  (Hfetch c w Hp eq_refl eq_refl)).
  - reflexivity.
  - reflexivity.
  - rewrite (load_run env params _ (data p) _ Hen
               (Hfetch c1 w Hp eq_refl eq_refl)).
    unfold c1, set_token. simpl. by rewrite load_rebuild_idem.
Qed.

(** X5, run: the list was cached one second ago. *)
Lemma load_from_fresh_cache_witness :
  exists st1,
    load env_up None (st_cached 2000) = (Ok tt, st1) /\
    world st1 = world (st_cached 2000) /\
    token (client st1)
      = load_rebuild env_up [sample_token USDC "USDC"]
          (token (client (st_cached 2000))) /\
    load env_up None st1 = (Ok tt, st1).
Proof.
  apply (load_from_fresh_cache env_up None (st_cached 2000)
           {| fetched := 1000; data := [sample_token USDC "USDC"] |});
    [reflexivity | reflexivity | simpl; lia | reflexivity].
Defined.

(** X6. [fetchJupTokenList(true)] asks the API exactly once, however
    fresh the cached list is. A successful answer is returned and replaces
    the cache, stamped with the time of its arrival; a failed one leaves
    the client as it was and yields the empty list. *)
Theorem forced_fetch_always_asks (env : Env) (st st' : St)
    (r : Outcome (list ApiV3Token)) :
  fetchJupTokenList env (Some true) st = (r, st') ->
  jup_fetches (world st') = S (jup_fetches (world st)) /\
  (forall v dt,
     api_getJupTokenList env (world st) = (Ok v, dt) ->
     r = Ok v /\
     apiData_jupTokenList (client st')
       = Some {| fetched := clock (world st'); data := v |}) /\
  (forall e dt,
     api_getJupTokenList env (world st) = (Throw e, dt) ->
     r = Ok [] /\ client st' = client st).
Proof.
  assert (Hrun : refetchJupTokenList env st = (r, st') ->
                 jup_fetches (world st') = S (jup_fetches (world st)) /\
                 (forall v dt,
                    api_getJupTokenList env (world st) = (Ok v, dt) ->
                    r = Ok v /\
                    apiData_jupTokenList (client st')
                      = Some {| fetched := clock (world st'); data := v |}) /\
                 (forall e dt,
                    api_getJupTokenList env (world st) = (Throw e, dt) ->
                    r = Ok [] /\ client st' = client st)).
  { rewrite refetchJupTokenList_run. simpl.
    destruct (api_getJupTokenList env (world st)) as [[v|e] dt];
      intros [= <- <-]; simpl.
    - split; [rewrite jup_fetches_snoc; simpl; lia|].
      split; [intros v' dt' [= <- <-]; by split | intros e' dt' [=]].
    - split.
      + unfold jup_fetches. simpl.
        rewrite !List.filter_app, !length_app. simpl. lia.
      + split; [intros v' dt' [=] | intros e' dt' _; by split]. }
  rewrite fetchJupTokenList_run.
  destruct (apiData_jupTokenList (client st)) as [p|]; [|exact Hrun].
  destruct (_ >? _); exact Hrun.
Qed.

(** X6, run: a forced call one second after the list was cached. *)
Lemma forced_fetch_always_asks_witness :
  jup_fetches (world (snd (fetchJupTokenList env_up (Some true) (st_cached 2000))))
  = S (jup_fetches (world (st_cached 2000))).
Proof.
  exact (proj1 (forced_fetch_always_asks env_up (st_cached 2000) _ _ eq_refl)).
Defined.

(** X7. [GfxCpmmClient.load] does not fail when the token list cannot be
    fetched: with the module enabled and the API call rejected, it returns
    a client whose list view is the native asset alone, whose external set
    is empty and whose token-list cache is still empty, the error having
    gone to the console. *)
Theorem client_load_survives_api_failure (env : Env)
    (config : ClientLoadParams) (st : St) (e : Exn) (dt : N) :
  checkDisabled env = None ->
  disableLoadToken config = false ->
  api_getJupTokenList env (world st) = (Throw e, dt) ->
  exists st',
    GfxCpmmClient_load env config st = (Ok tt, st') /\
    apiData_jupTokenList (client st') = None /\
    tokenList (token (client st')) = [SOL_INFO env] /\
    jup (mintGroup (token (client st'))) = ∅ /\
    history (world st')
      = (history (world st) ++ [EvGetJupTokenList; EvConsoleError e])%list.
Proof.
  intros Hen Hload Hapi.
  unfold GfxCpmmClient_load. rewrite Hload. simpl.
  set (st0 := {| client := new_GfxCpmmClient (merge_defaults config);
                 world := world st |}).
  assert (Hfetch : fetchJupTokenList env (Some false) st0 =
    (Ok [], {| client := client st0;
               world := {| clock := clock (world st) + Z.of_N dt;
                           history := (history (world st) ++ [EvGetJupTokenList])
                                      ++ [EvConsoleError e] |} |})).
  { rewrite fetchJupTokenList_run, refetchJupTokenList_run. simpl.
    by rewrite Hapi. }
  eexists. split.
  - change ((modify_client (fun _ => new_GfxCpmmClient (merge_defaults config));;
             load env (Some {| forceUpdate := None |})) st)
      with (load env (Some {| forceUpdate := None |}) st0).
    apply load_run; [exact Hen | exact Hfetch].
  - simpl. rewrite <- app_assoc. repeat split.
Qed.

(** X7, run: every remote call fails. *)
Lemma client_load_survives_api_failure_witness :
  exists st',
    GfxCpmmClient_load env_down cfg_load_tokens (st_fresh cfg_default 1000)
      = (Ok tt, st') /\
    apiData_jupTokenList (client st') = None /\
    tokenList (token (client st')) = [SOL_INFO env_down] /\
    jup (mintGroup (token (client st'))) = ∅ /\
    history (world st')
      = ([] ++ [EvGetJupTokenList; EvConsoleError (Rejected "Network Error")])%list.
Proof.
  exact (client_load_survives_api_failure env_down cfg_load_tokens
           (st_fresh cfg_default 1000) (Rejected "Network Error") 10%N
           eq_refl eq_refl eq_refl).
Defined.

(* --------------------------------------------------------------------- *)
(** ** The two timestamps *)

(** X8. The epoch is stamped with the time its request was sent. After a
    refresh that took [dt] ms, the cache holds the answer with the time
    before the request; a call made the moment the answer arrived is
    served from the cache when [dt <= 30000], and asks the ledger again
    when the request took longer than 30 seconds. *)
Theorem epoch_stale_on_arrival (env : Env) (st : St) (v : EpochInfo) (dt : N) :
  (forall c, _epochInfo (client st) = Some c ->
             clock (world st) - epoch_fetched c > 30000) ->
  connection_getEpochInfo env (world st) = (Ok v, dt) ->
  let st1 := snd (fetchEpochInfo env st) in
  fst (fetchEpochInfo env st) = Ok v /\
  _epochInfo (client st1)
    = Some {| epoch_fetched := clock (world st); epoch_value := v |} /\
  clock (world st1) = clock (world st) + Z.of_N dt /\
  (Z.of_N dt <= 30000 -> fetchEpochInfo env st1 = (Ok v, st1)) /\
  (Z.of_N dt > 30000 ->
   epoch_fetches (world (snd (fetchEpochInfo env st1)))
     = S (epoch_fetches (world st1))).
Proof.
  intros Hstale Hask.
  assert (Hrun : fetchEpochInfo env st =
    (Ok v,
     {| client := set_epochInfo
                    (Some {| epoch_fetched := clock (world st);
                             epoch_value := v |}) (client st);
        world := {| clock := clock (world st) + Z.of_N dt;
                    history := history (world st) ++ [EvGetEpochInfo] |} |})).
  { rewrite fetchEpochInfo_run.
    destruct (_epochInfo (client st)) as [c|].
    - replace (_ <=? _) with false
        by (symmetry; apply Z.leb_gt; specialize (Hstale c eq_refl); lia).
      rewrite refetchEpochInfo_run. simpl. by rewrite Hask.
    - rewrite refetchEpochInfo_run. simpl. by rewrite Hask. }
  rewrite Hrun. simpl. repeat split.
  - intros Hdt. rewrite fetchEpochInfo_run. simpl.
    replace (_ <=? _) with true by (symmetry; apply Z.leb_le; lia).
    reflexivity.
  - intros Hdt. rewrite fetchEpochInfo_run. simpl.
    replace (_ <=? _) with false by (symmetry; apply Z.leb_gt; lia).
    rewrite refetchEpochInfo_run. simpl.
    match goal with
    | |- context [connection_getEpochInfo env ?w] =>
        destruct (connection_getEpochInfo env w) as [[v'|e'] dt']
    end; simpl; unfold epoch_fetches; simpl;
      rewrite !List.filter_app, !length_app; simpl; lia.
Qed.

(** X8, run: the ledger takes 45 seconds; the next call asks it again. *)
Lemma epoch_stale_on_arrival_witness :
  let st1 := snd (fetchEpochInfo env_slow (st_fresh cfg_default 1000)) in
  clock (world st1) = 1000 + Z.of_N 45000 /\
  epoch_fetches (world (snd (fetchEpochInfo env_slow st1)))
    = S (epoch_fetches (world st1)).
Proof.
  destruct (epoch_stale_on_arrival env_slow (st_fresh cfg_default 1000)
              {| epoch_number := 600; slotIndex := 1000;
                 slotsInEpoch := 432000; absoluteSlot := 259201000 |}
              45000%N ltac:(intros c Hc; discriminate Hc) eq_refl)
    as (_ & _ & Hclock & _ & Hstale).
  split; [exact Hclock | apply Hstale; lia].
Defined.

(** X9. The token list is stamped with the time its answer arrived. After
    a fetch that succeeded, with a TTL that is not negative, a call made
    the moment the answer arrived is served from the cache, however long
    the request took. *)
Theorem jup_fresh_on_arrival (env : Env) (fu : option bool) (st st1 : St)
    (v : list ApiV3Token) (dt : N) (r : Outcome (list ApiV3Token)) :
  api_getJupTokenList env (world st) = (Ok v, dt) ->
  fetchJupTokenList env fu st = (r, st1) ->
  jup_fetches (world st1) = S (jup_fetches (world st)) ->
  0 <= _apiCacheTime (client st) ->
  r = Ok v /\
  apiData_jupTokenList (client st1)
    = Some {| fetched := clock (world st) + Z.of_N dt; data := v |} /\
  fetchJupTokenList env None st1 = (Ok v, st1).
Proof.
  intros Hask Hrun Hfetched Httl.
  rewrite fetchJupTokenList_run, refetchJupTokenList_run in Hrun.
  simpl in Hrun. rewrite Hask in Hrun.
  assert (Hst1 : (r, st1) =
    (Ok v,
     {| client := set_jupTokenList
                    (Some {| fetched := clock (world st) + Z.of_N dt;
                             data := v |}) (client st);
        world := {| clock := clock (world st) + Z.of_N dt;
                    history := history (world st) ++ [EvGetJupTokenList] |} |})).
  { destruct (apiData_jupTokenList (client st)) as [p|]; [|congruence].
    destruct (_ && _)%bool; [|congruence].
    injection Hrun as <- <-. lia. }
  injection Hst1 as -> ->. split; [reflexivity|]. split; [reflexivity|].
  rewrite fetchJupTokenList_run. simpl.
  rewrite gtb_false by lia. reflexivity.
Qed.

(** X9, run: the first fetch of a new client, and the call after it. *)
Lemma jup_fresh_on_arrival_witness :
  fetchJupTokenList env_up None
    (snd (fetchJupTokenList env_up None (st_fresh cfg_default 1000)))
  = (Ok [sample_token USDC "USDC"],
     snd (fetchJupTokenList env_up None (st_fresh cfg_default 1000))).
Proof.
  exact (proj2 (proj2 (jup_fresh_on_arrival env_up None
                         (st_fresh cfg_default 1000) _
                         [sample_token USDC "USDC"] 10%N _
                         eq_refl eq_refl eq_refl ltac:(simpl; lia)))).
Defined.

(* --------------------------------------------------------------------- *)
(** ** [endlessRetry]: the runs that do not end *)

Section RetryForever.
Context {T : Type} (nullish : T -> bool).
Context (name : string) (call : M T) (interval : Z).

Lemma retry_attempt_run st :
  retry_attempt name call st =
  call {| client := client st;
          world := {| clock := clock (world st);
                      history := history (world st)
                        ++ [EvLoggerDebug
                              ("Request " ++ name ++ " through endlessRetry")] |} |}.
Proof. reflexivity. Qed.

Lemma loop_while_rejected fuel : forall result st,
  (forall s, exists e s', call s = (Throw e, s')) ->
  result_undefined nullish result = true ->
  fst (endlessRetry_loop nullish fuel name call interval result st) = Ok None.
Proof.
  induction fuel as [|fuel IH]; intros result st Hcall Hres.
  - simpl. by rewrite Hres.
  - rewrite (endlessRetry_loop_step _ _ _ _ _ _ _ Hres), endlessRetry_body_run.
    rewrite retry_attempt_run.
    destruct (Hcall {| client := client st;
          world := {| clock := clock (world st);
                      history := history (world st)
                        ++ [EvLoggerDebug
                              ("Request " ++ name ++ " through endlessRetry")] |} |})
      as (e & s' & ->).
    by apply IH.
Qed.

Lemma loop_while_rejected_time fuel : forall result st,
  (forall s, exists e, call s = (Throw e, s)) ->
  result_undefined nullish result = true ->
  let st' := snd (endlessRetry_loop nullish fuel name call interval result st) in
  client st' = client st /\
  clock (world st') = clock (world st) + Z.of_nat fuel * Z.max 0 interval /\
  length (history (world st')) = (length (history (world st)) + 3 * fuel)%nat.
Proof.
  induction fuel as [|fuel IH]; intros result st Hcall Hres.
  - simpl. rewrite Hres. simpl. repeat split; lia.
  - rewrite (endlessRetry_loop_step _ _ _ _ _ _ _ Hres), endlessRetry_body_run.
    rewrite retry_attempt_run.
    destruct (Hcall {| client := client st;
          world := {| clock := clock (world st);
                      history := history (world st)
                        ++ [EvLoggerDebug
                              ("Request " ++ name ++ " through endlessRetry")] |} |})
      as (e & ->).
    match goal with
    | |- context [endlessRetry_loop nullish fuel name call interval result ?s] =>
        destruct (IH result s Hcall Hres) as (Hc & Hclock & Hlen)
    end.
    simpl in *. rewrite Hc, Hclock, Hlen.
    repeat split; [lia|]. rewrite !length_app. simpl. lia.
Qed.

Lemma loop_while_nullish fuel : forall result st,
  (forall s, exists u, call s = (Ok u, s) /\ nullish u = true) ->
  result_undefined nullish result = true ->
  let '(r, st') := endlessRetry_loop nullish fuel name call interval result st in
  r = Ok None /\
  client st' = client st /\
  clock (world st') = clock (world st) /\
  history (world st') =
    (history (world st)
     ++ replicate fuel
          (EvLoggerDebug ("Request " ++ name ++ " through endlessRetry")))%list.
Proof.
  induction fuel as [|fuel IH]; intros result st Hcall Hres.
  - simpl. rewrite Hres. simpl. by rewrite app_nil_r.
  - rewrite (endlessRetry_loop_step _ _ _ _ _ _ _ Hres), endlessRetry_body_run.
    rewrite retry_attempt_run.
    destruct (Hcall {| client := client st;
          world := {| clock := clock (world st);
                      history := history (world st)
                        ++ [EvLoggerDebug
                              ("Request " ++ name ++ " through endlessRetry")] |} |})
      as (u & -> & Hu).
    match goal with
    | |- context [endlessRetry_loop nullish fuel name call interval ?r ?s] =>
        specialize (IH r s Hcall Hu);
        destruct (endlessRetry_loop nullish fuel name call interval r s)
          as [r' st']
    end.
    destruct IH as (-> & Hc & Hclock & Hh). simpl in *.
    rewrite Hc, Hclock, Hh, <- app_assoc. repeat split.
Qed.

End RetryForever.

(** X10. [endlessRetry] does not give up: if [call] fails in every state,
    no number of iterations makes it return. If [call] fails without
    touching anything, [n] iterations leave the client as it was, have
    slept [n] times [interval] ms (1000 when not given; a negative interval
    sleeps no time) and have written [3 n] lines: per iteration the debug
    line, the error line and the sleep. *)
Theorem endlessRetry_never_gives_up {T : Type} (nullish : T -> bool)
    (name : string) (call : M T) (interval : option Z) (st : St) :
  ((forall s, exists e s', call s = (Throw e, s')) ->
   forall fuel,
     fst (endlessRetry nullish fuel name call interval st) = Ok None) /\
  ((forall s, exists e, call s = (Throw e, s)) ->
   forall fuel,
     let st' := snd (endlessRetry nullish fuel name call interval st) in
     client st' = client st /\
     clock (world st')
       = clock (world st) + Z.of_nat fuel * Z.max 0 (default 1000 interval) /\
     length (history (world st'))
       = (length (history (world st)) + 3 * fuel)%nat).
Proof.
  split; intros Hcall fuel; unfold endlessRetry.
  - by apply loop_while_rejected.
  - by apply loop_while_rejected_time.
Qed.

(** X10, run: four iterations with an interval of 250 ms. *)
Lemma endlessRetry_never_gives_up_witness :
  fst (endlessRetry is_undefined 4 "poll" always_rejected (Some 250)
         (st_fresh cfg_default 1000)) = Ok None /\
  clock (world (snd (endlessRetry is_undefined 4 "poll" always_rejected
                       (Some 250) (st_fresh cfg_default 1000))))
    = 1000 + Z.of_nat 4 * Z.max 0 250.
Proof.
  split.
  - apply (proj1 (endlessRetry_never_gives_up is_undefined "poll"
                    always_rejected (Some 250) (st_fresh cfg_default 1000))).
    intros s. by exists (Rejected "timeout"), s.
  - apply (proj2 (endlessRetry_never_gives_up is_undefined "poll"
                    always_rejected (Some 250) (st_fresh cfg_default 1000))).
    intros s. by exists (Rejected "timeout").
Defined.

(** X11. If [call] always resolves to [undefined] or [null] without
    touching anything, [endlessRetry] does not return either, and it never
    sleeps: [n] iterations leave the clock where it was and write [n]
    debug lines and nothing else. *)
Theorem endlessRetry_spins_on_undefined {T : Type} (nullish : T -> bool)
    (name : string) (call : M T) (interval : option Z) (st : St) :
  (forall s, exists u, call s = (Ok u, s) /\ nullish u = true) ->
  forall fuel,
    let '(r, st') := endlessRetry nullish fuel name call interval st in
    r = Ok None /\
    client st' = client st /\
    clock (world st') = clock (world st) /\
    history (world st') =
      (history (world st)
       ++ replicate fuel
            (EvLoggerDebug ("Request " ++ name ++ " through endlessRetry")))%list.
Proof.
  intros Hcall fuel. unfold endlessRetry. by apply loop_while_nullish.
Qed.

(** X11, run: three iterations. *)
Lemma endlessRetry_spins_on_undefined_witness :
  let '(r, st') := endlessRetry is_undefined 3 "poll" always_undefined None
                     (st_fresh cfg_default 1000) in
  r = Ok None /\
  client st' = client (st_fresh cfg_default 1000) /\
  clock (world st') = 1000 /\
  history (world st') =
    ([] ++ replicate 3 (EvLoggerDebug ("Request " ++ "poll"
                                        ++ " through endlessRetry")))%list.
Proof.
  apply (endlessRetry_spins_on_undefined is_undefined "poll" always_undefined
           None (st_fresh cfg_default 1000)).
  intros s. by exists None.
Defined.

(* --------------------------------------------------------------------- *)
(** ** The pool-key cache *)

Lemma map_set_keyed_by_id cache poolKey :
  keyed_by_id cache -> keyed_by_id (cache_poolKey cache poolKey).
Proof.
  unfold keyed_by_id, cache_poolKey. intros Hc.
  induction cache as [|[k0 v0] m IH]; simpl.
  - by repeat constructor.
  - apply Forall_cons in Hc as [H0 Hm].
    destruct (String.eqb_spec k0 (ApiPoolKeys.id poolKey)) as [->|Hne];
      constructor; auto.
Qed.

Lemma fold_cache_keyed data : forall cache,
  keyed_by_id cache -> keyed_by_id (fold_left cache_poolKey data cache).
Proof.
  induction data as [|k data IH]; intros cache Hc; simpl; [exact Hc|].
  by apply IH, map_set_keyed_by_id.
Qed.

Lemma fold_cache_is_Some data : forall cache i,
  is_Some (map_get i (fold_left cache_poolKey data cache)) <->
  is_Some (map_get i cache) \/ i ∈ ApiPoolKeys.id <$> data.
Proof.
  induction data as [|k data IH]; intros cache i.
  - simpl.
    split; [by left | intros [?|Hin]; [assumption | by apply elem_of_nil in Hin]].
  - simpl fold_left. rewrite IH, fmap_cons, elem_of_cons. unfold cache_poolKey.
    rewrite map_get_set.
    destruct (String.eqb_spec (ApiPoolKeys.id k) i) as [->|Hne].
    + split; [intros _; right; by left | intros _; left; eauto].
    + split; [intros [?|?]; auto | intros [?|[?|?]]; auto; congruence].
Qed.

Lemma keyed_get cache i k :
  keyed_by_id cache -> map_get i cache = Some k -> ApiPoolKeys.id k = i.
Proof.
  unfold keyed_by_id. intros Hc.
  induction Hc as [|[k0 v0] m H0 _ IH]; simpl; [discriminate|].
  destruct (String.eqb_spec k0 i) as [->|Hne]; [|exact IH].
  by intros [= <-].
Qed.

Section PoolKeyFacts.
Context (get_poolKeys :
           string -> list string -> Outcome (list (option ApiPoolKeys.t))).
Context (urlConfigs : UrlConfig.t).

Lemma ready_nil (cache : JsMap ApiPoolKeys.t) idList :
  (forall i, i ∈ idList -> is_Some (map_get i cache)) ->
  List.filter (fun poolId => negb (map_has poolId cache)) idList = [].
Proof.
  induction idList as [|i l IH]; intros Hall; simpl; [reflexivity|].
  unfold map_has at 1. destruct (Hall i) as [k ->]; [by left|]. simpl.
  apply IH. intros j Hj. apply Hall. by right.
Qed.

Lemma ready_nil_inv (cache : JsMap ApiPoolKeys.t) idList :
  List.filter (fun poolId => negb (map_has poolId cache)) idList = [] ->
  forall i, i ∈ idList -> is_Some (map_get i cache).
Proof.
  induction idList as [|i l IH]; simpl; intros Hnil j Hj.
  - by apply elem_of_nil in Hj.
  - unfold map_has in Hnil at 1.
    destruct (map_get i cache) as [k|] eqn:Hget; [|discriminate].
    apply elem_of_cons in Hj as [->|Hj]; [rewrite Hget; eauto | by apply IH].
Qed.

Lemma cached_all (cache : JsMap ApiPoolKeys.t) idList :
  (forall i, i ∈ idList -> is_Some (map_get i cache)) ->
  Forall2 (fun i k => map_get i cache = Some k) idList
    (omap (fun poolId => map_get poolId cache) idList).
Proof.
  induction idList as [|i l IH]; intros Hall; simpl; [constructor|].
  destruct (Hall i) as [k Hk]; [by left|]. rewrite Hk. constructor; [exact Hk|].
  apply IH. intros j Hj. apply Hall. by right.
Qed.

(** X12. [fetchPoolKeysById] sends a request exactly when some id of the
    list is not in the cache, and at most one per call. When every id is
    cached it leaves cache and request log as they are and returns, in the
    order of the list, the key cached for each id. *)
Theorem fetchPoolKeysById_asks_only_when_missing (idList : list string)
    (st st' : ApiSt) (r : Outcome (list ApiPoolKeys.t)) :
  fetchPoolKeysById get_poolKeys urlConfigs idList st = (r, st') ->
  (requests st' = requests st <->
   forall i, i ∈ idList -> is_Some (map_get i (poolKeysCache st))) /\
  (requests st' = requests st ->
   st' = st /\
   exists keys, r = Ok keys /\
     Forall2 (fun i k => map_get i (poolKeysCache st) = Some k) idList keys) /\
  (length (requests st') <= S (length (requests st)))%nat.
Proof.
  unfold fetchPoolKeysById.
  destruct (List.filter _ idList) as [|i0 ready] eqn:Hready.
  - intros [= <- <-].
    pose proof (ready_nil_inv _ _ Hready) as Hall.
    split; [split; auto|]. split; [|lia].
    intros _. split; [reflexivity|]. eexists. split; [reflexivity|].
    rewrite app_nil_r. by apply cached_all.
  - assert (Hmiss : ~ forall i, i ∈ idList -> is_Some (map_get i (poolKeysCache st))).
    { intros Hall. apply ready_nil in Hall. congruence. }
    destruct (get_poolKeys _ _) as [res|e]; intros [= <- <-]; simpl.
    all: split; [split; [intros Habs; by apply snoc_neq in Habs | tauto]|].
    all: split; [intros Habs; by apply snoc_neq in Habs|].
    all: rewrite length_app; simpl; lia.
Qed.

(** What a successful call leaves in the cache. *)
Lemma poolKeys_written_back (idList : list string) (st st' : ApiSt)
    (keys : list ApiPoolKeys.t) :
  keyed_by_id (poolKeysCache st) ->
  fetchPoolKeysById get_poolKeys urlConfigs idList st = (Ok keys, st') ->
  keyed_by_id (poolKeysCache st') /\
  (forall i, is_Some (map_get i (poolKeysCache st)) ->
             is_Some (map_get i (poolKeysCache st'))) /\
  (forall k, k ∈ keys ->
             exists k', map_get (ApiPoolKeys.id k) (poolKeysCache st') = Some k' /\
                        ApiPoolKeys.id k' = ApiPoolKeys.id k).
Proof.
  intros Hkeyed. unfold fetchPoolKeysById.
  assert (Hcached : forall (cache' : JsMap ApiPoolKeys.t) k,
    (forall i, is_Some (map_get i (poolKeysCache st)) ->
               is_Some (map_get i cache')) ->
    k ∈ omap (fun poolId => map_get poolId (poolKeysCache st)) idList ->
    is_Some (map_get (ApiPoolKeys.id k) cache')).
  { intros cache' k Hmono Hk. apply list_elem_of_omap in Hk as (i & _ & Hi).
    apply Hmono. rewrite (keyed_get _ _ _ Hkeyed Hi). eauto. }
  assert (Hfound : forall cache' k,
    keyed_by_id cache' -> is_Some (map_get (ApiPoolKeys.id k) cache') ->
    exists k', map_get (ApiPoolKeys.id k) cache' = Some k' /\
               ApiPoolKeys.id k' = ApiPoolKeys.id k).
  { intros cache' k Hk' [k' Hget]. exists k'. split; [exact Hget|].
    by apply (keyed_get cache'). }
  destruct (List.filter _ idList) as [|i0 ready].
  - intros [= <- <-]. split; [exact Hkeyed|]. split; [auto|].
    intros k Hk. rewrite app_nil_r in Hk. apply Hfound; [exact Hkeyed|].
    by apply Hcached.
  - destruct (get_poolKeys _ _) as [res|e]; [|discriminate].
    intros [= <- <-]. simpl.
    set (data := omap (fun poolKey => poolKey) res).
    assert (Hmono : forall i, is_Some (map_get i (poolKeysCache st)) ->
      is_Some (map_get i (fold_left cache_poolKey data (poolKeysCache st))))
      by (intros i Hi; apply fold_cache_is_Some; by left).
    split; [by apply fold_cache_keyed|]. split; [exact Hmono|].
    intros k Hk. apply Hfound; [by apply fold_cache_keyed|].
    apply elem_of_app in Hk as [Hk|Hk]; [by apply Hcached|].
    apply fold_cache_is_Some. right. by apply list_elem_of_fmap_2.
Qed.


(** X14. With every cached key filed under its own id: after a successful
    [fetchPoolKeysById] whose result has a key for every id of the list,
    the same call again sends no request, changes nothing, and returns for
    each id, in order, a key with that id. *)
Theorem fetchPoolKeysById_memo (idList : list string) (st st1 : ApiSt)
    (keys : list ApiPoolKeys.t) :
  keyed_by_id (poolKeysCache st) ->
  fetchPoolKeysById get_poolKeys urlConfigs idList st = (Ok keys, st1) ->
  (forall i, i ∈ idList -> i ∈ ApiPoolKeys.id <$> keys) ->
  exists keys2,
    fetchPoolKeysById get_poolKeys urlConfigs idList st1 = (Ok keys2, st1) /\
    Forall2 (fun i k => ApiPoolKeys.id k = i) idList keys2.
Proof.
  intros Hkeyed Hrun Hcover.
  destruct (poolKeys_written_back _ _ _ _ Hkeyed Hrun)
    as (Hkeyed1 & _ & Hback).
  assert (Hall : forall i, i ∈ idList -> is_Some (map_get i (poolKeysCache st1))).
  { intros i Hi. apply Hcover, list_elem_of_fmap in Hi as (k & -> & Hk).
    destruct (Hback k Hk) as (k' & Hget & _). eauto. }
  unfold fetchPoolKeysById. rewrite (ready_nil _ _ Hall).
  eexists. split; [reflexivity|]. rewrite app_nil_r.
  eapply Forall2_impl; [by apply cached_all|].
  intros i k Hget. by apply (keyed_get (poolKeysCache st1)).
Qed.

(** X15. When [fetchPoolKeysById] fails, it fails with the error of its
    one request, and the cache is as it was. *)
Theorem fetchPoolKeysById_failure (idList : list string) (st st' : ApiSt)
    (e : Exn) :
  fetchPoolKeysById get_poolKeys urlConfigs idList st = (Throw e, st') ->
  poolKeysCache st' = poolKeysCache st /\
  exists path,
    requests st' = (requests st ++ [path])%list /\
    get_poolKeys path (requests st) = Throw e.
Proof.
  unfold fetchPoolKeysById.
  destruct (List.filter _ idList) as [|i0 ready]; [discriminate|].
  destruct (get_poolKeys _ _) as [res|e'] eqn:Hget; intros [= <- <-].
  split; [reflexivity|]. eexists. split; [reflexivity | exact Hget].
Qed.

End PoolKeyFacts.

(** X12, run: two ids, none cached: one request. *)
Lemma fetchPoolKeysById_asks_only_when_missing_witness :
  (length (requests (snd (fetchPoolKeysById server_all UrlConfig.empty
                            ["pool1"; "pool2"] api_fresh)))
   <= S (length (requests api_fresh)))%nat.
Proof.
  exact (proj2 (proj2 (fetchPoolKeysById_asks_only_when_missing server_all
                         UrlConfig.empty ["pool1"; "pool2"] api_fresh _ _
                         eq_refl))).
Defined.


(** X14, run: the same two ids asked a second time. *)
Lemma fetchPoolKeysById_memo_witness :
  let st1 := snd (fetchPoolKeysById server_all UrlConfig.empty
                    ["pool1"; "pool2"] api_fresh) in
  exists keys2,
    fetchPoolKeysById server_all UrlConfig.empty ["pool1"; "pool2"] st1
      = (Ok keys2, st1) /\
    Forall2 (fun i k => ApiPoolKeys.id k = i) ["pool1"; "pool2"] keys2.
Proof.
  apply (fetchPoolKeysById_memo server_all UrlConfig.empty ["pool1"; "pool2"]
           api_fresh _ [sample_poolKey "pool1"; sample_poolKey "pool2"]
           (Forall_nil_2 _) eq_refl).
  intros i Hi. exact Hi.
Defined.

(** X15, run: the server is down. *)
Lemma fetchPoolKeysById_failure_witness :
  poolKeysCache (snd (fetchPoolKeysById server_down UrlConfig.empty
                        ["pool1"] api_fresh)) = poolKeysCache api_fresh /\
  exists path,
    requests (snd (fetchPoolKeysById server_down UrlConfig.empty
                     ["pool1"] api_fresh))
      = (requests api_fresh ++ [path])%list /\
    server_down (A := list (option ApiPoolKeys.t)) path (requests api_fresh)
      = Throw (Rejected "Network Error").
Proof.
  exact (fetchPoolKeysById_failure server_down UrlConfig.empty ["pool1"]
           api_fresh _ (Rejected "Network Error") eq_refl).
Defined.

(* --------------------------------------------------------------------- *)
(** ** The pool search by mints *)

Lemma ltb_swap a b :
  (if String.ltb b a then (b, a) else (a, b))
  = (if String.ltb a b then (a, b) else (b, a)).
Proof.
  unfold String.ltb. rewrite (String.compare_antisym b a).
  destruct (String.compare a b) eqn:Hc; simpl; try reflexivity.
  apply String.compare_eq_iff in Hc. by subst.
Qed.

Lemma ltb_sorted a b :
  String.leb (fst (if String.ltb b a then (b, a) else (a, b)))
             (snd (if String.ltb b a then (b, a) else (a, b))) = true.
Proof.
  unfold String.ltb, String.leb. rewrite (String.compare_antisym b a).
  destruct (String.compare a b) eqn:Hc; simpl; rewrite ?Hc; try reflexivity.
  rewrite (String.compare_antisym b a), Hc. reflexivity.
Qed.

Section PoolSearchFacts.
Context {Pools : Type}.
Context (get_pools : string -> list string -> Outcome Pools).
Context (solToWSol : string -> Outcome string).
Context (urlConfigs : UrlConfig.t).

(** X16. The pool search does not depend on the order of its two mints:
    for two mints that are non-empty, not the text ["undefined"], and which
    [solToWSol] turns into non-empty keys, [fetchPoolByMints] sends the
    same request and has the same outcome for the pair given either way
    round; the smaller key goes in [mint1], the larger in [mint2]. *)
Theorem fetchPoolByMints_symmetric (a b a' b' : string)
    (ty : option PoolFetchType) (so ord : option string) (pg : option Z)
    (st : ApiSt) :
  str_truthy a = true -> a <> "undefined" ->
  str_truthy b = true -> b <> "undefined" ->
  solToWSol a = Ok a' -> str_truthy a' = true ->
  solToWSol b = Ok b' -> str_truthy b' = true ->
  let ab := {| mint1 := a; mint2 := Some b; pool_type := ty; sort := so;
               order := ord; page := pg |} in
  let ba := {| mint1 := b; mint2 := Some a; pool_type := ty; sort := so;
               order := ord; page := pg |} in
  fetchPoolByMints get_pools solToWSol urlConfigs ab st
    = fetchPoolByMints get_pools solToWSol urlConfigs ba st /\
  exists base quote,
    mint_pair solToWSol ab = Ok (base, quote) /\
    String.leb base quote = true /\
    (base = a' /\ quote = b' \/ base = b' /\ quote = a').
Proof.
  intros Ha Hau Hb Hbu Ha' Hta Hb' Htb ab ba.
  assert (Hab : mint_pair solToWSol ab
                = Ok (if String.ltb b' a' then (b', a') else (a', b'))).
  { unfold mint_pair, ab. simpl. rewrite Ha, Ha', Hb, Hb'.
    destruct (String.eqb_spec b "undefined"); [congruence|]. simpl.
    by rewrite Htb. }
  assert (Hba : mint_pair solToWSol ba
                = Ok (if String.ltb a' b' then (a', b') else (b', a'))).
  { unfold mint_pair, ba. simpl. rewrite Ha, Ha', Hb, Hb'.
    destruct (String.eqb_spec a "undefined"); [congruence|]. simpl.
    by rewrite Hta. }
  split.
  - unfold fetchPoolByMints. rewrite Hab, Hba, ltb_swap. reflexivity.
  - pose proof (ltb_sorted a' b') as Hs.
    destruct (String.ltb b' a') eqn:Hlt; eexists; eexists;
      (split; [rewrite Hab, ?Hlt; reflexivity|]); (split; [exact Hs|]); tauto.
Qed.

End PoolSearchFacts.

(** X16, run: USDC and BONK, either way round. *)
Lemma fetchPoolByMints_symmetric_witness :
  fetchPoolByMints server_echo Ok UrlConfig.empty
    {| mint1 := USDC; mint2 := Some BONK; pool_type := None; sort := None;
       order := None; page := None |} api_fresh
  = fetchPoolByMints server_echo Ok UrlConfig.empty
      {| mint1 := BONK; mint2 := Some USDC; pool_type := None; sort := None;
         order := None; page := None |} api_fresh.
Proof.
  exact (proj1 (fetchPoolByMints_symmetric server_echo Ok UrlConfig.empty
                  USDC BONK USDC BONK None None None None api_fresh
                  eq_refl ltac:(discriminate) eq_refl ltac:(discriminate)
                  eq_refl eq_refl eq_refl eq_refl)).
Defined.

(** The request of that search: BONK sorts before USDC. *)
Example fetchPoolByMints_path :
  fst (fetchPoolByMints server_echo Ok UrlConfig.empty
         {| mint1 := USDC; mint2 := Some BONK; pool_type := None; sort := None;
            order := None; page := None |} api_fresh)
  = Throw (Rejected
      ("/pools/info/mint?mint1=" ++ BONK ++ "&mint2=" ++ USDC
       ++ "&poolType=all&poolSortField=default&sortType=desc&pageSize=100&page=1")).
Proof. reflexivity. Qed.

(* --------------------------------------------------------------------- *)
(** ** The epoch fetch, failing *)

(** X17. [fetchEpochInfo] has no [catch]: when it asks the ledger, having no
    cached epoch or one older than 30 seconds, and the ledger call fails,
    the call fails with the ledger's error after that one request, and the
    client is as it was, so an older epoch stays cached and is not
    served. *)
Theorem fetchEpochInfo_failed_refresh (env : Env) (st : St) (e : Exn)
    (dt : N) :
  connection_getEpochInfo env (world st) = (Throw e, dt) ->
  (forall c, _epochInfo (client st) = Some c ->
             clock (world st) - epoch_fetched c > 30000) ->
  let '(r, st') := fetchEpochInfo env st in
  r = Throw e /\
  client st' = client st /\
  history (world st') = (history (world st) ++ [EvGetEpochInfo])%list.
Proof.
  intros Hask Hstale.
  destruct (fetchEpochInfo_failure_propagates env st e dt Hask Hstale)
    as [Hr Hc].
  destruct (fetchEpochInfo env st) as [r st'] eqn:Hrun. simpl in Hr, Hc.
  split; [exact Hr|]. split; [exact Hc|].
  rewrite fetchEpochInfo_run in Hrun.
  assert (Hre : refetchEpochInfo env st = (r, st')).
  { destruct (_epochInfo (client st)) as [c|]; [|exact Hrun].
    destruct (_ <=? _) eqn:Hle; [|exact Hrun].
    apply Z.leb_le in Hle. specialize (Hstale c eq_refl). lia. }
  rewrite refetchEpochInfo_run in Hre. simpl in Hre. rewrite Hask in Hre.
  by injection Hre as <- <-.
Qed.

(** X17, run: the ledger is down and the cached epoch is 39 seconds old. *)
Lemma fetchEpochInfo_failed_refresh_witness :
  let '(r, st') := fetchEpochInfo env_down (st_cached 40000) in
  r = Throw (Rejected "fetch failed") /\
  client st' = client (st_cached 40000) /\
  history (world st') = ([] ++ [EvGetEpochInfo])%list.
Proof.
  apply (fetchEpochInfo_failed_refresh env_down (st_cached 40000)
           (Rejected "fetch failed") 10%N eq_refl).
  intros c [= <-]. simpl. lia.
Defined.
